(** * A counting semaphore with bounded waits (package [semaphore])

    Shallow embedding of [semaphore/semaphore.go].  A single goroutine drives
    the semaphore: every method is a function from the receiver's state and
    a schedule to the returned value, the new state, the time the call spent
    blocked and the rest of the schedule.

    Modelling conventions.
    - Go's [int] and [time.Duration] are 64-bit; they are carried as [Z] and
      the arithmetic the code performs on them is wrapped ([GoInt.wrap]).
    - [chan struct{}] is a buffer of [unit] values with a capacity.
    - A [select] between a channel operation and [<-time.After(d)] chooses
      among the cases that are ready.  When the channel operation cannot
      proceed, the goroutine waits for the timer: with one goroutine
      nothing else can make the channel ready.  When the channel operation
      can proceed, the timer may be ready too (always for [d <= 0], and for
      a positive [d] whenever that much time has passed before the poll),
      and then either case may be taken.  Which one is taken is read from
      the schedule, one entry per such [select]: [true] for the timer
      case.  A schedule that has run out leaves the channel case.  The
      properties below hold for every schedule unless they say otherwise.
    - A call that can never return (a blocked lock, a panic) yields [None]. *)

From Stdlib Require Import ZArith List Lia Bool.
Import ListNotations.
Open Scope Z_scope.

(** ** Machine integers *)

Module GoInt.

Definition min_int : Z := - 2 ^ 63.
Definition max_int : Z := 2 ^ 63 - 1.

Definition in_range (z : Z) : Prop := min_int <= z <= max_int.

(** Two's complement wrap-around of 64-bit signed arithmetic. *)
Definition wrap (z : Z) : Z := (z + 2 ^ 63) mod 2 ^ 64 - 2 ^ 63.

End GoInt.

(** ** Buffered channels of [struct{}] *)

Record chan : Type := mkChan {
  chan_buf : list unit;
  chan_cap : Z
}.

(** [make(chan struct{}, size)]; a negative size panics. *)
Definition make_chan (size : Z) : option chan :=
  if size <? 0 then None else Some (mkChan [] size).

Definition chan_len (c : chan) : Z := Z.of_nat (length (chan_buf c)).

(** A receive that can proceed at once takes the oldest buffered value. *)
Definition try_recv (c : chan) : option (unit * chan) :=
  match chan_buf c with
  | [] => None
  | v :: rest => Some (v, mkChan rest (chan_cap c))
  end.

(** A send can proceed at once when the buffer has room. *)
Definition try_send (v : unit) (c : chan) : option chan :=
  if chan_len c <? chan_cap c
  then Some (mkChan (chan_buf c ++ [v]) (chan_cap c))
  else None.

(** ** [sync.RWMutex] *)

Record RWMutex : Type := mkRWMutex {
  writer : bool;
  readers : nat
}.

Definition unlocked : RWMutex := mkRWMutex false O.

(** ** The semaphore *)

Record CountingSemaphore : Type := mkCS {
  sem : chan;
  maxPermits : Z;
  currentPermits : Z;
  mutex : RWMutex;
  timeout : Z
}.

Definition set_sem (c : chan) (cs : CountingSemaphore) : CountingSemaphore :=
  mkCS c (maxPermits cs) (currentPermits cs) (mutex cs) (timeout cs).

Definition set_currentPermits (p : Z) (cs : CountingSemaphore)
  : CountingSemaphore :=
  mkCS (sem cs) (maxPermits cs) p (mutex cs) (timeout cs).

Definition set_mutex (m : RWMutex) (cs : CountingSemaphore)
  : CountingSemaphore :=
  mkCS (sem cs) (maxPermits cs) (currentPermits cs) m (timeout cs).

(** The errors built by the [fmt.Errorf] calls, one constructor per call
    site, carrying the formatted arguments. *)
Inductive error : Type :=
| ErrAcquireTimeout
| ErrReleaseTimeout
| ErrRequestedTooMany (n max : Z)
| ErrNotEnough (available n : Z)
| ErrReleaseTooMany (n held : Z).

(** The three kinds of failure of the error taxonomy. *)
Inductive ErrorKind : Type := TimeoutError | InvalidRequest | InsufficientPermits.

Definition kind_of (e : error) : ErrorKind :=
  match e with
  | ErrAcquireTimeout | ErrReleaseTimeout => TimeoutError
  | ErrRequestedTooMany _ _ | ErrReleaseTooMany _ _ => InvalidRequest
  | ErrNotEnough _ _ => InsufficientPermits
  end.

(** ** The method monad: state, schedule, elapsed time, and calls that
    never return *)

(** The choices of the [select] statements whose two cases are both ready,
    in the order the goroutine executes them: [true] when the timer case is
    taken. *)
Definition Schedule : Type := list bool.

Definition M (A : Type) : Type :=
  CountingSemaphore -> Schedule ->
  option (A * CountingSemaphore * Z * Schedule).

Definition ret {A : Type} (a : A) : M A := fun cs o => Some (a, cs, 0, o).

Definition bind {A B : Type} (m : M A) (f : A -> M B) : M B :=
  fun cs o =>
    match m cs o with
    | None => None
    | Some (a, cs1, d1, o1) =>
        match f a cs1 o1 with
        | None => None
        | Some (b, cs2, d2, o2) => Some (b, cs2, d1 + d2, o2)
        end
    end.

Notation "x <- m ;; k" := (bind m (fun x => k))
  (at level 61, m at next level, right associativity).
Notation "m ;; k" := (bind m (fun _ => k))
  (at level 61, right associativity).

Definition get : M CountingSemaphore := fun cs o => Some (cs, cs, 0, o).
Definition modify (f : CountingSemaphore -> CountingSemaphore) : M unit :=
  fun cs o => Some (tt, f cs, 0, o).
Definition never {A : Type} : M A := fun _ _ => None.
Definition sleep (d : Z) : M unit := fun cs o => Some (tt, cs, d, o).

(** The choice of a [select] whose channel case and timer case are both
    candidates: the next entry of the schedule. *)
Definition timer_first : M bool :=
  fun cs o => Some (hd false o, cs, 0, tl o).

(** [<-time.After(d)] once it is the case taken: the timer fires once [d]
    has elapsed, immediately when [d] is not positive. *)
Definition time_After (d : Z) : M unit := sleep (Z.max 0 d).

(** [cs.mutex.Lock()]: waits for the writer and all readers to leave. *)
Definition mutex_Lock : M unit :=
  cs <- get ;;
  if writer (mutex cs) then never
  else match readers (mutex cs) with
       | O => modify (set_mutex (mkRWMutex true O))
       | S _ => never
       end.

(** [cs.mutex.Unlock()]: a fatal error when the lock is not write-held. *)
Definition mutex_Unlock : M unit :=
  cs <- get ;;
  if writer (mutex cs)
  then modify (set_mutex (mkRWMutex false (readers (mutex cs))))
  else never.

Definition mutex_RLock : M unit :=
  cs <- get ;;
  if writer (mutex cs) then never
  else modify (set_mutex (mkRWMutex false (S (readers (mutex cs))))).

Definition mutex_RUnlock : M unit :=
  cs <- get ;;
  match readers (mutex cs) with
  | O => never
  | S r => modify (set_mutex (mkRWMutex (writer (mutex cs)) r))
  end.

(** [case _ = <-cs.sem] in a [select] with [default]: whether the receive
    can proceed, taking the token when it can. *)
Definition recv_sem : M bool :=
  cs <- get ;;
  match try_recv (sem cs) with
  | Some (_, c) => modify (set_sem c) ;; ret true
  | None => ret false
  end.

(** [case _ = <-cs.sem] in a [select] with [case <-time.After(...)]:
    whether the receive is the case taken, taking the token when it is. *)
Definition recv_sem_or_timer : M bool :=
  cs <- get ;;
  match try_recv (sem cs) with
  | Some (_, c) =>
      timer <- timer_first ;;
      if timer : bool then ret false
      else modify (set_sem c) ;; ret true
  | None => ret false
  end.

(** [case cs.sem <- struct{}{}] in a [select] with
    [case <-time.After(...)]: whether the send is the case taken,
    depositing the token when it is. *)
Definition send_sem_or_timer : M bool :=
  cs <- get ;;
  match try_send tt (sem cs) with
  | Some c =>
      timer <- timer_first ;;
      if timer : bool then ret false
      else modify (set_sem c) ;; ret true
  | None => ret false
  end.

(** [cs.currentPermits--] and [cs.currentPermits++]. *)
Definition dec_currentPermits : M unit :=
  modify (fun cs => set_currentPermits (GoInt.wrap (currentPermits cs - 1)) cs).
Definition inc_currentPermits : M unit :=
  modify (fun cs => set_currentPermits (GoInt.wrap (currentPermits cs + 1)) cs).

(** ** The methods *)

Definition Acquire : M (option error) :=
  received <- recv_sem_or_timer ;;
  if received : bool then
    mutex_Lock ;;
    dec_currentPermits ;;
    mutex_Unlock ;;
    ret None
  else
    cs <- get ;;
    time_After (timeout cs) ;;
    ret (Some ErrAcquireTimeout).

Definition TryAcquire : M bool :=
  ready <- recv_sem ;;
  if ready : bool then
    mutex_Lock ;;
    dec_currentPermits ;;
    mutex_Unlock ;;
    ret true
  else
    ret false.

Definition Release : M (option error) :=
  sent <- send_sem_or_timer ;;
  if sent : bool then
    mutex_Lock ;;
    inc_currentPermits ;;
    mutex_Unlock ;;
    ret None
  else
    cs <- get ;;
    time_After (timeout cs) ;;
    ret (Some ErrReleaseTimeout).

Definition AvailablePermits : M Z :=
  mutex_RLock ;;
  cs <- get ;;
  mutex_RUnlock ;;
  ret (currentPermits cs).

(** The loop of [ReleaseN]: [k] iterations remain ([k = n - i]). *)
Fixpoint ReleaseN_loop (k : nat) : M (option error) :=
  match k with
  | O => ret None
  | S k' =>
      err <- Release ;;
      match err with
      | Some e => ret (Some e)
      | None => ReleaseN_loop k'
      end
  end.

Definition ReleaseN (n : Z) : M (option error) :=
  mutex_RLock ;;
  cs <- get ;;
  let availableToRelease := GoInt.wrap (maxPermits cs - currentPermits cs) in
  mutex_RUnlock ;;
  if n >? availableToRelease then
    ret (Some (ErrReleaseTooMany n availableToRelease))
  else
    ReleaseN_loop (Z.to_nat n).

(** The loop of [AcquireN] at index [i], with [k] iterations remaining
    ([k = n - i]).  The error of the rollback [cs.ReleaseN(i)] is dropped. *)
Fixpoint AcquireN_loop (k : nat) (i : Z) : M (option error) :=
  match k with
  | O => ret None
  | S k' =>
      err <- Acquire ;;
      match err with
      | Some e => ReleaseN i ;; ret (Some e)
      | None => AcquireN_loop k' (i + 1)
      end
  end.

Definition AcquireN (n : Z) : M (option error) :=
  cs <- get ;;
  if n >? maxPermits cs then
    ret (Some (ErrRequestedTooMany n (maxPermits cs)))
  else
    available <- AvailablePermits ;;
    if available <? n then
      available' <- AvailablePermits ;;
      ret (Some (ErrNotEnough available' n))
    else
      AcquireN_loop (Z.to_nat n) 0.

(** The filling loop of the constructor: [k] sends remain.  Nothing bounds
    the wait of these sends, so one that cannot proceed never returns. *)
Fixpoint fill (k : nat) (c : chan) : option chan :=
  match k with
  | O => Some c
  | S k' =>
      match try_send tt c with
      | Some c' => fill k' c'
      | None => None
      end
  end.

Definition NewCountingSemaphore (maxPermits timeout : Z)
  : option CountingSemaphore :=
  match make_chan maxPermits with
  | None => None
  | Some c =>
      match fill (Z.to_nat maxPermits) c with
      | None => None
      | Some c' => Some (mkCS c' maxPermits maxPermits unlocked timeout)
      end
  end.

(** The receiver with its pool contents and counter replaced. *)
Definition with_pool (buf : list unit) (p : Z) (cs : CountingSemaphore)
  : CountingSemaphore :=
  mkCS (mkChan buf (chan_cap (sem cs))) (maxPermits cs) p (mutex cs)
       (timeout cs).

(** The receiver with [k] permits available: [k] tokens in the pool and the
    counter at [k]. *)
Definition with_available (k : Z) (cs : CountingSemaphore)
  : CountingSemaphore :=
  with_pool (repeat tt (Z.to_nat k)) k cs.

(** ** Schedules and loops

    A loop of [k] calls of [Acquire] (or [Release]) whose channel operation
    can proceed each time stops at the first call whose [select] takes the
    timer case. *)

(** The number of calls that take the channel case before that. *)
Fixpoint granted (k : nat) (o : Schedule) : nat :=
  match k with
  | O => O
  | S k' => if hd false o then O else S (granted k' (tl o))
  end.

(** The schedule left when the loop stops. *)
Fixpoint rest_after (k : nat) (o : Schedule) : Schedule :=
  match k with
  | O => o
  | S k' => if hd false o then tl o else rest_after k' (tl o)
  end.

(** ** Sequences of operations *)

Inductive Op : Type :=
| OpAcquire
| OpTryAcquire
| OpRelease
| OpAcquireN (n : Z)
| OpReleaseN (n : Z).

Definition state_after {A : Type} (m : M A)
           (cs : CountingSemaphore) (o : Schedule)
  : option (CountingSemaphore * Schedule) :=
  match m cs o with
  | Some (_, cs', _, o') => Some (cs', o')
  | None => None
  end.

Definition exec (op : Op)
  : CountingSemaphore -> Schedule -> option (CountingSemaphore * Schedule) :=
  match op with
  | OpAcquire => state_after Acquire
  | OpTryAcquire => state_after TryAcquire
  | OpRelease => state_after Release
  | OpAcquireN n => state_after (AcquireN n)
  | OpReleaseN n => state_after (ReleaseN n)
  end.

(** The states after each operation of a sequence, in order. *)
Fixpoint trace (ops : list Op) (cs : CountingSemaphore) (o : Schedule)
  : option (list CountingSemaphore) :=
  match ops with
  | [] => Some []
  | op :: rest =>
      match exec op cs o with
      | None => None
      | Some (cs', o') =>
          match trace rest cs' o' with
          | None => None
          | Some tr => Some (cs' :: tr)
          end
      end
  end.

Fixpoint run (ops : list Op) (cs : CountingSemaphore) (o : Schedule)
  : option (CountingSemaphore * Schedule) :=
  match ops with
  | [] => Some (cs, o)
  | op :: rest =>
      match exec op cs o with
      | None => None
      | Some (cs', o') => run rest cs' o'
      end
  end.

(** States a single goroutine can bring a fresh semaphore to, under some
    schedule. *)
Definition Reachable (cs : CountingSemaphore) : Prop :=
  exists (C t : Z) (cs0 : CountingSemaphore) (ops : list Op)
         (o o' : Schedule),
    GoInt.in_range C /\
    NewCountingSemaphore C t = Some cs0 /\
    run ops cs0 o = Some (cs, o').

(** Whether a call succeeded: a nil error, or the [true] of [TryAcquire]. *)
Definition is_nil (err : option error) : bool :=
  match err with
  | None => true
  | Some _ => false
  end.

Definition attempt (op : Op) : M bool :=
  match op with
  | OpAcquire => err <- Acquire ;; ret (is_nil err)
  | OpTryAcquire => TryAcquire
  | OpRelease => err <- Release ;; ret (is_nil err)
  | OpAcquireN n => err <- AcquireN n ;; ret (is_nil err)
  | OpReleaseN n => err <- ReleaseN n ;; ret (is_nil err)
  end.

(** A sequence of calls, and whether every one of them succeeded. *)
Fixpoint attempts (ops : list Op) : M bool :=
  match ops with
  | [] => ret true
  | op :: rest =>
      ok <- attempt op ;;
      oks <- attempts rest ;;
      ret (ok && oks)
  end.

(** The change of the number of available permits a call asks for. *)
Definition nominal (op : Op) : Z :=
  match op with
  | OpAcquire | OpTryAcquire => -1
  | OpRelease => 1
  | OpAcquireN n => - Z.max 0 n
  | OpReleaseN n => Z.max 0 n
  end.

(** The change a sequence of calls asks for. *)
Definition net_change (ops : list Op) : Z :=
  fold_right (fun op z => nominal op + z) 0 ops.

(** The calls for a single permit. *)
Definition single (op : Op) : bool :=
  match op with
  | OpAcquire | OpTryAcquire | OpRelease => true
  | OpAcquireN _ | OpReleaseN _ => false
  end.

(** ** State predicates *)

(** What every method relies on between calls: the pool was made with
    capacity [maxPermits], nobody holds the lock, and pool and counter are
    within the capacity. *)
Record Quiescent (cs : CountingSemaphore) : Prop := mkQuiescent {
  q_cap : chan_cap (sem cs) = maxPermits cs;
  q_mutex : mutex cs = unlocked;
  q_len : chan_len (sem cs) <= chan_cap (sem cs);
  q_counter : 0 <= currentPermits cs <= maxPermits cs;
  q_max : maxPermits cs <= GoInt.max_int
}.

(** The state invariant: moreover the counter mirrors the pool. *)
Record Inv (cs : CountingSemaphore) : Prop := mkInv {
  inv_quiescent : Quiescent cs;
  inv_mirror : currentPermits cs = chan_len (sem cs)
}.

(** The value a call returns, when it returns. *)
Definition returns {A : Type} (m : M A)
           (cs : CountingSemaphore) (o : Schedule) : option A :=
  match m cs o with
  | Some (a, _, _, _) => Some a
  | None => None
  end.

(** A call keeps the configuration when, whenever it returns, the capacity,
    the timeout and the channel's capacity are what they were and the lock
    is in the state the call found it in. *)
Definition keeps_config {A : Type} (m : M A) : Prop :=
  forall (cs cs' : CountingSemaphore) (o o' : Schedule) (r : A) (d : Z),
    m cs o = Some (r, cs', d, o') ->
    maxPermits cs' = maxPermits cs /\
    timeout cs' = timeout cs /\
    chan_cap (sem cs') = chan_cap (sem cs) /\
    mutex cs' = mutex cs.

(** Three [TryAcquire] calls in a row, as the demonstration driver makes
    them, collecting the three answers. *)
Definition TryAcquire_thrice : M (bool * bool * bool) :=
  a <- TryAcquire ;;
  b <- TryAcquire ;;
  c <- TryAcquire ;;
  ret (a, b, c).

(** ** The sequential part of the demonstration driver

    After its workers have finished, [main] exercises the semaphore from one
    goroutine.  The lines it prints are kept as values, one constructor per
    [fmt.Printf] or [fmt.Println] call, carrying the formatted arguments. *)
Inductive line : Type :=
| HeaderTryAcquire
| TryAcquired (attempt_no : Z)
| TryAcquireFailed (attempt_no : Z)
| AllReleased (available : Z)
| HeaderBulk
| TryingToAcquireTwo
| AcquireTwoFailed (e : error)
| AcquiredTwo (available : Z)
| ReleasedTwo (available : Z)
| Finished.

(** [for i := 0; i < 3; i++ { if sem.TryAcquire() {...} else {...} }] at
    index [i], with [k] iterations remaining. *)
Fixpoint main_TryAcquire_loop (k : nat) (i : Z) : M (list line) :=
  match k with
  | O => ret []
  | S k' =>
      ok <- TryAcquire ;;
      let printed :=
        if ok : bool then TryAcquired (i + 1) else TryAcquireFailed (i + 1) in
      rest <- main_TryAcquire_loop k' (i + 1) ;;
      ret (printed :: rest)
  end.

(** [main] from the [TryAcquire] demonstration to its end.  The errors of
    the [ReleaseN] calls are dropped, as the driver drops them. *)
Definition main_sequential_part : M (list line) :=
  tries <- main_TryAcquire_loop 3 0 ;;
  availableAfterTry <- AvailablePermits ;;
  ReleaseN availableAfterTry ;;
  available <- AvailablePermits ;;
  err <- AcquireN 2 ;;
  bulk <- match err with
          | Some e => ret [AcquireTwoFailed e]
          | None =>
              available1 <- AvailablePermits ;;
              ReleaseN 2 ;;
              available2 <- AvailablePermits ;;
              ret [AcquiredTwo available1; ReleasedTwo available2]
          end ;;
  ret ([HeaderTryAcquire] ++ tries ++ [AllReleased available]
       ++ [HeaderBulk; TryingToAcquireTwo] ++ bulk ++ [Finished]).

(** What the loop of three attempts prints when [a] tokens are in the
    pool: successes while tokens last, failures afterwards. *)
Fixpoint attempt_lines (a k : nat) (i : Z) : list line :=
  match k with
  | O => []
  | S k' =>
      match a with
      | O => TryAcquireFailed (i + 1) :: attempt_lines O k' (i + 1)
      | S a' => TryAcquired (i + 1) :: attempt_lines a' k' (i + 1)
      end
  end.

(** ** Sample states *)

(** A semaphore of capacity 2 and timeout 5s as the driver builds it, with
    2, 1 and 0 permits available. *)
Definition sem_2_2 : CountingSemaphore :=
  mkCS (mkChan [tt; tt] 2) 2 2 unlocked 5000000000.
Definition sem_1_2 : CountingSemaphore :=
  mkCS (mkChan [tt] 2) 2 1 unlocked 5000000000.
Definition sem_0_2 : CountingSemaphore :=
  mkCS (mkChan [] 2) 2 0 unlocked 5000000000.

(** A semaphore of capacity 2 built with timeout 0, for which the timer of
    every [select] is ready at once, with 2, 1 and 0 permits available. *)
Definition now_2_2 : CountingSemaphore := mkCS (mkChan [tt; tt] 2) 2 2 unlocked 0.
Definition now_1_2 : CountingSemaphore := mkCS (mkChan [tt] 2) 2 1 unlocked 0.
Definition now_0_2 : CountingSemaphore := mkCS (mkChan [] 2) 2 0 unlocked 0.

(** ** Basic facts *)

Lemma wrap_in_range (z : Z) : GoInt.in_range z -> GoInt.wrap z = z.
Proof.
  unfold GoInt.in_range, GoInt.min_int, GoInt.max_int, GoInt.wrap. intros H.
  rewrite Z.mod_small; lia.
Qed.

Lemma min_int_neg : GoInt.min_int < 0.
Proof. reflexivity. Qed.

Lemma unit_list_repeat (l : list unit) : l = repeat tt (length l).
Proof.
  induction l as [|[] l IH]; simpl; [reflexivity | now rewrite <- IH].
Qed.

Lemma unit_list_eq (l1 l2 : list unit) : length l1 = length l2 -> l1 = l2.
Proof.
  intros H. rewrite (unit_list_repeat l1), (unit_list_repeat l2).
  now rewrite H.
Qed.

Lemma with_pool_id (cs : CountingSemaphore) :
  with_pool (chan_buf (sem cs)) (currentPermits cs) cs = cs.
Proof. destruct cs as [[buf cap] mx cp mu t]; reflexivity. Qed.

Lemma with_pool_available (b : list unit) (p : Z) (cs : CountingSemaphore) :
  Z.of_nat (length b) = p -> with_pool b p cs = with_available p cs.
Proof.
  intros H. unfold with_available. f_equal. apply unit_list_eq.
  rewrite repeat_length. lia.
Qed.

Lemma with_available_twice (j k : Z) (cs : CountingSemaphore) :
  with_available k (with_available j cs) = with_available k cs.
Proof. reflexivity. Qed.

(** Unfolds the monad and the primitive operations, leaving integer
    arithmetic and the schedule untouched. *)
Ltac unfold_m :=
  cbv beta iota delta
    [bind ret get modify never sleep time_After timer_first
     mutex_Lock mutex_Unlock mutex_RLock mutex_RUnlock
     recv_sem recv_sem_or_timer send_sem_or_timer
     dec_currentPermits inc_currentPermits
     try_recv try_send chan_len set_sem set_currentPermits set_mutex
     Acquire TryAcquire Release AvailablePermits with_pool unlocked
     sem maxPermits currentPermits mutex timeout chan_buf chan_cap
     writer readers].
Tactic Notation "unfold_m" "in" hyp(H) :=
  cbv beta iota delta
    [bind ret get modify never sleep time_After timer_first
     mutex_Lock mutex_Unlock mutex_RLock mutex_RUnlock
     recv_sem recv_sem_or_timer send_sem_or_timer
     dec_currentPermits inc_currentPermits
     try_recv try_send chan_len set_sem set_currentPermits set_mutex
     Acquire TryAcquire Release AvailablePermits with_pool unlocked
     sem maxPermits currentPermits mutex timeout chan_buf chan_cap
     writer readers] in H.

(** ** One-step behaviour of the single-permit methods *)

Lemma Acquire_token (cs : CountingSemaphore) (v : unit) (rest : list unit)
      (o : Schedule) :
  mutex cs = unlocked ->
  chan_buf (sem cs) = v :: rest ->
  hd false o = false ->
  Acquire cs o
  = Some (None, with_pool rest (GoInt.wrap (currentPermits cs - 1)) cs, 0,
          tl o).
Proof.
  destruct cs as [[buf cap] mx cp mu t]; simpl; intros -> -> Ho.
  unfold_m. rewrite Ho. reflexivity.
Qed.

Lemma Acquire_timer (cs : CountingSemaphore) (v : unit) (rest : list unit)
      (o : Schedule) :
  chan_buf (sem cs) = v :: rest ->
  hd false o = true ->
  Acquire cs o
  = Some (Some ErrAcquireTimeout, cs, Z.max 0 (timeout cs), tl o).
Proof.
  destruct cs as [[buf cap] mx cp mu t]; simpl; intros -> Ho.
  unfold_m. rewrite Ho. now rewrite ?Z.add_0_l, ?Z.add_0_r.
Qed.

Lemma Acquire_empty (cs : CountingSemaphore) (o : Schedule) :
  chan_buf (sem cs) = [] ->
  Acquire cs o = Some (Some ErrAcquireTimeout, cs, Z.max 0 (timeout cs), o).
Proof.
  destruct cs as [[buf cap] mx cp mu t]; simpl; intros ->.
  unfold_m. now rewrite ?Z.add_0_l, ?Z.add_0_r.
Qed.

Lemma TryAcquire_token (cs : CountingSemaphore) (v : unit) (rest : list unit)
      (o : Schedule) :
  mutex cs = unlocked ->
  chan_buf (sem cs) = v :: rest ->
  TryAcquire cs o
  = Some (true, with_pool rest (GoInt.wrap (currentPermits cs - 1)) cs, 0, o).
Proof.
  destruct cs as [[buf cap] mx cp mu t]; simpl; intros -> ->. reflexivity.
Qed.

Lemma TryAcquire_empty (cs : CountingSemaphore) (o : Schedule) :
  chan_buf (sem cs) = [] -> TryAcquire cs o = Some (false, cs, 0, o).
Proof.
  destruct cs as [[buf cap] mx cp mu t]; simpl; intros ->. reflexivity.
Qed.

Lemma Release_room (cs : CountingSemaphore) (o : Schedule) :
  mutex cs = unlocked ->
  chan_len (sem cs) < chan_cap (sem cs) ->
  hd false o = false ->
  Release cs o
  = Some (None,
          with_pool (chan_buf (sem cs) ++ [tt])
                    (GoInt.wrap (currentPermits cs + 1)) cs, 0, tl o).
Proof.
  destruct cs as [[buf cap] mx cp mu t]; simpl; intros -> H Ho.
  apply Z.ltb_lt in H. unfold_m. unfold_m in H. rewrite H, Ho. reflexivity.
Qed.

Lemma Release_timer (cs : CountingSemaphore) (o : Schedule) :
  chan_len (sem cs) < chan_cap (sem cs) ->
  hd false o = true ->
  Release cs o
  = Some (Some ErrReleaseTimeout, cs, Z.max 0 (timeout cs), tl o).
Proof.
  destruct cs as [[buf cap] mx cp mu t]; simpl; intros H Ho.
  apply Z.ltb_lt in H. unfold_m. unfold_m in H. rewrite H, Ho.
  now rewrite ?Z.add_0_l, ?Z.add_0_r.
Qed.

Lemma Release_full (cs : CountingSemaphore) (o : Schedule) :
  chan_cap (sem cs) <= chan_len (sem cs) ->
  Release cs o = Some (Some ErrReleaseTimeout, cs, Z.max 0 (timeout cs), o).
Proof.
  destruct cs as [[buf cap] mx cp mu t]; simpl; intros H.
  apply Z.ltb_ge in H. unfold_m. unfold_m in H. rewrite H.
  now rewrite ?Z.add_0_l, ?Z.add_0_r.
Qed.

Lemma AvailablePermits_read (cs : CountingSemaphore) (o : Schedule) :
  mutex cs = unlocked ->
  AvailablePermits cs o = Some (currentPermits cs, cs, 0, o).
Proof.
  destruct cs as [[buf cap] mx cp mu t]; simpl; intros ->. reflexivity.
Qed.

(** ** Sequencing *)

Lemma bind_Some {A B : Type} (m : M A) (f : A -> M B)
      (cs cs1 : CountingSemaphore) (o o1 : Schedule) (a : A) (d1 : Z) :
  m cs o = Some (a, cs1, d1, o1) ->
  bind m f cs o
  = match f a cs1 o1 with
    | None => None
    | Some (b, cs2, d2, o2) => Some (b, cs2, d1 + d2, o2)
    end.
Proof. intros H. unfold bind. now rewrite H. Qed.

(** Runs the first call of a sequence, given what it returns. *)
Ltac step_bind H :=
  rewrite (bind_Some _ _ _ _ _ _ _ _ H); cbv beta iota.

(** ** The checks of the bulk methods *)

Lemma ReleaseN_reject (n : Z) (cs : CountingSemaphore) (o : Schedule) :
  mutex cs = unlocked ->
  GoInt.wrap (maxPermits cs - currentPermits cs) < n ->
  ReleaseN n cs o
  = Some (Some (ErrReleaseTooMany n
                  (GoInt.wrap (maxPermits cs - currentPermits cs))),
          cs, 0, o).
Proof.
  destruct cs as [[buf cap] mx cp mu t]; simpl; intros -> H.
  apply Z.gtb_lt in H. unfold ReleaseN. unfold_m. rewrite H. reflexivity.
Qed.

Lemma ReleaseN_enter (n : Z) (cs : CountingSemaphore) (o : Schedule) :
  mutex cs = unlocked ->
  n <= GoInt.wrap (maxPermits cs - currentPermits cs) ->
  ReleaseN n cs o = ReleaseN_loop (Z.to_nat n) cs o.
Proof.
  destruct cs as [[buf cap] mx cp mu t]; simpl; intros -> H.
  unfold ReleaseN. unfold_m.
  destruct (n >? GoInt.wrap (mx - cp)) eqn:E; [apply Z.gtb_lt in E; lia|].
  destruct (ReleaseN_loop _ _ _) as [[[[e cs'] d] o']|]; reflexivity.
Qed.

Lemma AcquireN_too_many (n : Z) (cs : CountingSemaphore) (o : Schedule) :
  maxPermits cs < n ->
  AcquireN n cs o
  = Some (Some (ErrRequestedTooMany n (maxPermits cs)), cs, 0, o).
Proof.
  destruct cs as [[buf cap] mx cp mu t]; simpl; intros H.
  apply Z.gtb_lt in H. unfold AcquireN. unfold_m. rewrite H. reflexivity.
Qed.

Lemma AcquireN_not_enough (n : Z) (cs : CountingSemaphore) (o : Schedule) :
  mutex cs = unlocked ->
  n <= maxPermits cs ->
  currentPermits cs < n ->
  AcquireN n cs o
  = Some (Some (ErrNotEnough (currentPermits cs) n), cs, 0, o).
Proof.
  destruct cs as [[buf cap] mx cp mu t]; simpl; intros -> Hn Hcp.
  unfold AcquireN. unfold_m.
  destruct (n >? mx) eqn:E; [apply Z.gtb_lt in E; lia|].
  apply Z.ltb_lt in Hcp. rewrite Hcp. reflexivity.
Qed.

Lemma AcquireN_enter (n : Z) (cs : CountingSemaphore) (o : Schedule) :
  mutex cs = unlocked ->
  n <= maxPermits cs ->
  n <= currentPermits cs ->
  AcquireN n cs o = AcquireN_loop (Z.to_nat n) 0 cs o.
Proof.
  destruct cs as [[buf cap] mx cp mu t]; simpl; intros -> Hn Hcp.
  unfold AcquireN. unfold_m.
  destruct (n >? mx) eqn:E; [apply Z.gtb_lt in E; lia|].
  destruct (cp <? n) eqn:E'; [apply Z.ltb_lt in E'; lia|].
  destruct (AcquireN_loop _ _ _ _) as [[[[e cs'] d] o']|]; reflexivity.
Qed.

(** ** The constructor *)

Lemma fill_room (k : nat) : forall c : chan,
  chan_len c + Z.of_nat k <= chan_cap c ->
  fill k c = Some (mkChan (chan_buf c ++ repeat tt k) (chan_cap c)).
Proof.
  induction k as [|k IH]; intros [buf cap] H; unfold chan_len in *; simpl in H.
  - simpl. now rewrite app_nil_r.
  - cbn [fill]. unfold try_send, chan_len. cbn [chan_buf chan_cap].
    destruct (Z.of_nat (length buf) <? cap) eqn:E;
      [|apply Z.ltb_ge in E; lia].
    rewrite IH.
    + cbn [chan_buf chan_cap repeat]. rewrite <- app_assoc. reflexivity.
    + unfold chan_len. cbn [chan_buf chan_cap]. rewrite length_app.
      cbn [length]. lia.
Qed.

Lemma New_loaded (C t : Z) :
  0 <= C ->
  NewCountingSemaphore C t
  = Some (mkCS (mkChan (repeat tt (Z.to_nat C)) C) C C unlocked t).
Proof.
  intros HC. unfold NewCountingSemaphore, make_chan.
  destruct (C <? 0) eqn:E; [apply Z.ltb_lt in E; lia|].
  rewrite fill_room; [reflexivity|].
  unfold chan_len; simpl. lia.
Qed.

Lemma New_negative (C t : Z) : C < 0 -> NewCountingSemaphore C t = None.
Proof.
  intros HC. unfold NewCountingSemaphore, make_chan.
  apply Z.ltb_lt in HC. now rewrite HC.
Qed.

(** ** The invariant *)

Lemma Inv_in_range (cs : CountingSemaphore) :
  Inv cs ->
  0 <= currentPermits cs <= maxPermits cs /\
  maxPermits cs <= GoInt.max_int /\
  currentPermits cs = Z.of_nat (length (chan_buf (sem cs))) /\
  chan_cap (sem cs) = maxPermits cs /\
  mutex cs = unlocked.
Proof.
  intros [[Hcap Hmu Hlen Hcnt Hmax] Hmir]. unfold chan_len in *. auto.
Qed.

Lemma Inv_New (C t : Z) (cs : CountingSemaphore) :
  C <= GoInt.max_int ->
  NewCountingSemaphore C t = Some cs ->
  Inv cs /\ maxPermits cs = C.
Proof.
  intros Hmax H. destruct (Z.ltb_spec C 0) as [Hneg|Hpos].
  - rewrite New_negative in H by exact Hneg. discriminate.
  - rewrite New_loaded in H by exact Hpos. injection H as <-.
    repeat split; unfold chan_len; simpl;
      rewrite ?repeat_length; lia.
Qed.

Lemma Inv_with_pool (buf : list unit) (cs : CountingSemaphore) :
  Inv cs ->
  Z.of_nat (length buf) <= maxPermits cs ->
  Inv (with_pool buf (Z.of_nat (length buf)) cs).
Proof.
  intros [[Hcap Hmu Hlen Hcnt Hmax] Hmir] Hbuf.
  repeat split; unfold chan_len; cbn [with_pool sem chan_buf chan_cap
    maxPermits currentPermits mutex]; lia || assumption.
Qed.

Lemma with_available_id (cs : CountingSemaphore) :
  Inv cs -> with_available (currentPermits cs) cs = cs.
Proof.
  intros HI. destruct (Inv_in_range cs HI) as (_ & _ & Hmir & _).
  rewrite <- (with_pool_id cs) at 3. symmetry.
  apply with_pool_available. lia.
Qed.

Lemma with_available_Inv (k : Z) (cs : CountingSemaphore) :
  Inv cs -> 0 <= k <= maxPermits cs -> Inv (with_available k cs).
Proof.
  intros HI Hk. unfold with_available.
  replace k with (Z.of_nat (length (repeat tt (Z.to_nat k)))) at 2
    by (rewrite repeat_length; lia).
  apply Inv_with_pool; [exact HI|]. rewrite repeat_length. lia.
Qed.

Lemma held_in_range (cs : CountingSemaphore) :
  0 <= currentPermits cs <= maxPermits cs ->
  maxPermits cs <= GoInt.max_int ->
  GoInt.wrap (maxPermits cs - currentPermits cs)
  = maxPermits cs - currentPermits cs.
Proof.
  intros H1 H2. pose proof min_int_neg.
  apply wrap_in_range. unfold GoInt.in_range. lia.
Qed.

(** ** Schedules *)

Lemma granted_le (k : nat) : forall o : Schedule, (granted k o <= k)%nat.
Proof.
  induction k as [|k IH]; intros o; simpl; [lia|].
  destruct (hd false o); [lia|]. specialize (IH (tl o)). lia.
Qed.

Lemma granted_all (k : nat) : forall o : Schedule,
  Forall (eq false) (firstn k o) -> granted k o = k.
Proof.
  induction k as [|k IH]; intros o H; simpl; [reflexivity|].
  destruct o as [|b o]; simpl in *.
  - f_equal. apply IH. destruct k; constructor.
  - inversion H as [|? ? Hb Hrest]; subst. f_equal. now apply IH.
Qed.

(** ** The single-permit methods on states that satisfy the invariant *)

Lemma Acquire_on_Inv (cs : CountingSemaphore) (o : Schedule) :
  Inv cs ->
  Acquire cs o
  = if currentPermits cs =? 0 then
      Some (Some ErrAcquireTimeout, cs, Z.max 0 (timeout cs), o)
    else if hd false o then
      Some (Some ErrAcquireTimeout, cs, Z.max 0 (timeout cs), tl o)
    else
      Some (None, with_available (currentPermits cs - 1) cs, 0, tl o).
Proof.
  intros HI.
  destruct (Inv_in_range cs HI) as (Hcnt & Hmax & Hmir & Hcap & Hmu).
  pose proof min_int_neg as Hmin.
  destruct (chan_buf (sem cs)) as [|v rest] eqn:Hbuf; simpl in Hmir.
  - rewrite Hmir. now apply Acquire_empty.
  - destruct (Z.eqb_spec (currentPermits cs) 0) as [E|_]; [lia|].
    destruct (hd false o) eqn:Ho.
    + now apply (Acquire_timer cs v rest).
    + rewrite (Acquire_token cs v rest o Hmu Hbuf Ho).
      rewrite wrap_in_range by (unfold GoInt.in_range; lia).
      rewrite (with_pool_available rest (currentPermits cs - 1)) by lia.
      reflexivity.
Qed.

Lemma TryAcquire_on_Inv (cs : CountingSemaphore) (o : Schedule) :
  Inv cs ->
  TryAcquire cs o
  = if currentPermits cs =? 0
    then Some (false, cs, 0, o)
    else Some (true, with_available (currentPermits cs - 1) cs, 0, o).
Proof.
  intros HI.
  destruct (Inv_in_range cs HI) as (Hcnt & Hmax & Hmir & Hcap & Hmu).
  pose proof min_int_neg as Hmin.
  destruct (chan_buf (sem cs)) as [|v rest] eqn:Hbuf; simpl in Hmir.
  - rewrite Hmir. now apply TryAcquire_empty.
  - destruct (Z.eqb_spec (currentPermits cs) 0) as [E|_]; [lia|].
    rewrite (TryAcquire_token cs v rest o Hmu Hbuf).
    rewrite wrap_in_range by (unfold GoInt.in_range; lia).
    rewrite (with_pool_available rest (currentPermits cs - 1)) by lia.
    reflexivity.
Qed.

Lemma Release_on_Inv (cs : CountingSemaphore) (o : Schedule) :
  Inv cs ->
  Release cs o
  = if currentPermits cs =? maxPermits cs then
      Some (Some ErrReleaseTimeout, cs, Z.max 0 (timeout cs), o)
    else if hd false o then
      Some (Some ErrReleaseTimeout, cs, Z.max 0 (timeout cs), tl o)
    else
      Some (None, with_available (currentPermits cs + 1) cs, 0, tl o).
Proof.
  intros HI.
  destruct (Inv_in_range cs HI) as (Hcnt & Hmax & Hmir & Hcap & Hmu).
  pose proof min_int_neg as Hmin.
  destruct (Z.eqb_spec (currentPermits cs) (maxPermits cs)) as [E|NE].
  - apply Release_full. unfold chan_len. lia.
  - destruct (hd false o) eqn:Ho.
    + apply Release_timer; [unfold chan_len; lia | exact Ho].
    + rewrite (Release_room cs o Hmu) by (unfold chan_len; lia || exact Ho).
      rewrite wrap_in_range by (unfold GoInt.in_range; lia).
      rewrite (with_pool_available _ (currentPermits cs + 1))
        by (rewrite length_app; simpl; lia).
      reflexivity.
Qed.

(** ** The loops of the bulk methods *)

(** With room for [k] more tokens, the release loop deposits one token per
    call until a call takes the timer case; it then returns the timeout
    error at once and the tokens deposited stay. *)
Lemma ReleaseN_loop_on_Inv (k : nat) :
  forall (cs : CountingSemaphore) (o : Schedule),
  Inv cs ->
  currentPermits cs + Z.of_nat k <= maxPermits cs ->
  ReleaseN_loop k cs o
  = Some (if (granted k o <? k)%nat then Some ErrReleaseTimeout else None,
          with_available (currentPermits cs + Z.of_nat (granted k o)) cs,
          if (granted k o <? k)%nat then Z.max 0 (timeout cs) else 0,
          rest_after k o).
Proof.
  induction k as [|k IH]; intros cs o HI Hroom.
  - simpl. unfold ret. rewrite Z.add_0_r, with_available_id by exact HI.
    reflexivity.
  - destruct (Inv_in_range cs HI) as (Hcnt & Hmax & _).
    cbn [ReleaseN_loop granted rest_after].
    pose proof (Release_on_Inv cs o HI) as HR.
    destruct (Z.eqb_spec (currentPermits cs) (maxPermits cs)) as [E|_];
      [lia|].
    destruct (hd false o) eqn:Ho.
    + step_bind HR. unfold ret.
      change (0 <? S k)%nat with true. cbv iota.
      rewrite !Z.add_0_r, with_available_id by exact HI. reflexivity.
    + step_bind HR.
      assert (HI1 : Inv (with_available (currentPermits cs + 1) cs))
        by (apply with_available_Inv; [exact HI | lia]).
      rewrite (IH _ (tl o) HI1)
        by (cbn [with_available with_pool currentPermits maxPermits]; lia).
      rewrite with_available_twice.
      cbn [with_available with_pool currentPermits timeout].
      change (S (granted k (tl o)) <? S k)%nat
        with (granted k (tl o) <? k)%nat.
      replace (currentPermits cs + 1 + Z.of_nat (granted k (tl o)))
        with (currentPermits cs + Z.of_nat (S (granted k (tl o)))) by lia.
      reflexivity.
Qed.

Lemma ReleaseN_on_Inv (n : Z) (cs : CountingSemaphore) (o : Schedule) :
  Inv cs ->
  ReleaseN n cs o
  = if maxPermits cs - currentPermits cs <? n then
      Some (Some (ErrReleaseTooMany n (maxPermits cs - currentPermits cs)),
            cs, 0, o)
    else
      Some (if (granted (Z.to_nat n) o <? Z.to_nat n)%nat
            then Some ErrReleaseTimeout else None,
            with_available
              (currentPermits cs + Z.of_nat (granted (Z.to_nat n) o)) cs,
            if (granted (Z.to_nat n) o <? Z.to_nat n)%nat
            then Z.max 0 (timeout cs) else 0,
            rest_after (Z.to_nat n) o).
Proof.
  intros HI.
  destruct (Inv_in_range cs HI) as (Hcnt & Hmax & Hmir & Hcap & Hmu).
  pose proof (held_in_range cs Hcnt Hmax) as Hheld.
  destruct (Z.ltb_spec (maxPermits cs - currentPermits cs) n) as [Hbig|Hfit].
  { rewrite <- Hheld. apply ReleaseN_reject; [exact Hmu | lia]. }
  rewrite (ReleaseN_enter n cs o Hmu) by lia.
  apply ReleaseN_loop_on_Inv; [exact HI | lia].
Qed.

(** With at least [k] permits available, the acquire loop takes one permit
    per call until a call takes the timer case; it then calls [ReleaseN]
    with the number of permits taken so far and returns the timeout error
    whatever [ReleaseN] returned. *)
Lemma AcquireN_loop_on_Inv (k : nat) :
  forall (i : Z) (cs : CountingSemaphore) (o : Schedule),
  Inv cs ->
  Z.of_nat k <= currentPermits cs ->
  AcquireN_loop k i cs o
  = if (granted k o <? k)%nat then
      match ReleaseN (i + Z.of_nat (granted k o))
              (with_available (currentPermits cs - Z.of_nat (granted k o)) cs)
              (rest_after k o) with
      | None => None
      | Some (_, cs', d, o') =>
          Some (Some ErrAcquireTimeout, cs', Z.max 0 (timeout cs) + d, o')
      end
    else
      Some (None, with_available (currentPermits cs - Z.of_nat k) cs, 0,
            rest_after k o).
Proof.
  induction k as [|k IH]; intros i cs o HI Hk.
  - simpl. unfold ret. rewrite Z.sub_0_r, with_available_id by exact HI.
    reflexivity.
  - destruct (Inv_in_range cs HI) as (Hcnt & Hmax & _).
    cbn [AcquireN_loop granted rest_after].
    pose proof (Acquire_on_Inv cs o HI) as HA.
    destruct (Z.eqb_spec (currentPermits cs) 0) as [E|_]; [lia|].
    destruct (hd false o) eqn:Ho.
    + step_bind HA. change (0 <? S k)%nat with true. cbv iota.
      rewrite Z.add_0_r, Z.sub_0_r, with_available_id by exact HI.
      unfold bind at 1.
      destruct (ReleaseN i cs (tl o)) as [[[[e cs'] d] o']|]; [|reflexivity].
      unfold ret. now rewrite Z.add_0_r.
    + step_bind HA.
      assert (HI1 : Inv (with_available (currentPermits cs - 1) cs))
        by (apply with_available_Inv; [exact HI | lia]).
      rewrite (IH (i + 1) _ (tl o) HI1)
        by (cbn [with_available with_pool currentPermits]; lia).
      change (S (granted k (tl o)) <? S k)%nat
        with (granted k (tl o) <? k)%nat.
      rewrite !with_available_twice.
      cbn [with_available with_pool currentPermits timeout].
      replace (i + 1 + Z.of_nat (granted k (tl o)))
        with (i + Z.of_nat (S (granted k (tl o)))) by lia.
      replace (currentPermits cs - 1 - Z.of_nat (granted k (tl o)))
        with (currentPermits cs - Z.of_nat (S (granted k (tl o)))) by lia.
      replace (currentPermits cs - 1 - Z.of_nat k)
        with (currentPermits cs - Z.of_nat (S k)) by lia.
      destruct (granted k (tl o) <? k)%nat; [|reflexivity].
      destruct (ReleaseN _ _ _) as [[[[e cs'] d] o']|]; reflexivity.
Qed.

(** The outcome of [AcquireN(n)] in a state that satisfies the invariant:
    refused by a check, or [i] permits taken and, when [i < n], [j] of them
    given back by the rollback. *)
Lemma AcquireN_on_Inv (n : Z) (cs : CountingSemaphore) (o : Schedule) :
  Inv cs ->
  AcquireN n cs o
  = if maxPermits cs <? n then
      Some (Some (ErrRequestedTooMany n (maxPermits cs)), cs, 0, o)
    else if currentPermits cs <? n then
      Some (Some (ErrNotEnough (currentPermits cs) n), cs, 0, o)
    else
      let i := granted (Z.to_nat n) o in
      let o1 := rest_after (Z.to_nat n) o in
      let j := granted i o1 in
      if (i <? Z.to_nat n)%nat then
        Some (Some ErrAcquireTimeout,
              with_available (currentPermits cs - Z.of_nat i + Z.of_nat j) cs,
              Z.max 0 (timeout cs)
              + (if (j <? i)%nat then Z.max 0 (timeout cs) else 0),
              rest_after i o1)
      else
        Some (None, with_available (currentPermits cs - Z.max 0 n) cs, 0, o1).
Proof.
  intros HI.
  destruct (Inv_in_range cs HI) as (Hcnt & Hmax & Hmir & Hcap & Hmu).
  destruct (Z.ltb_spec (maxPermits cs) n) as [Hbig|Hfit].
  { now apply AcquireN_too_many. }
  destruct (Z.ltb_spec (currentPermits cs) n) as [Hfew|Henough].
  { now apply AcquireN_not_enough. }
  rewrite (AcquireN_enter n cs o Hmu Hfit Henough).
  rewrite AcquireN_loop_on_Inv by (exact HI || lia).
  cbv zeta.
  pose proof (granted_le (Z.to_nat n) o) as Hi.
  destruct (Nat.ltb_spec (granted (Z.to_nat n) o) (Z.to_nat n)) as [Hlt|Hge].
  - set (i := granted (Z.to_nat n) o) in *.
    assert (HIi : Inv (with_available (currentPermits cs - Z.of_nat i) cs))
      by (apply with_available_Inv; [exact HI | lia]).
    rewrite (ReleaseN_on_Inv _ _ _ HIi).
    cbn [with_available with_pool currentPermits maxPermits timeout].
    destruct (Z.ltb_spec (maxPermits cs - (currentPermits cs - Z.of_nat i))
                         (0 + Z.of_nat i)) as [Hbad|_]; [lia|].
    rewrite with_available_twice.
    replace (Z.to_nat (0 + Z.of_nat i)) with i by lia.
    reflexivity.
  - replace (Z.of_nat (Z.to_nat n)) with (Z.max 0 n) by lia. reflexivity.
Qed.

(** ** Preservation of the invariant *)

(** Whatever the schedule, every operation returns and leaves the same
    semaphore with some number of permits between 0 and the capacity. *)
Lemma exec_on_Inv (op : Op) (cs : CountingSemaphore) (o : Schedule) :
  Inv cs ->
  exists (k : Z) (o' : Schedule),
    0 <= k <= maxPermits cs /\ exec op cs o = Some (with_available k cs, o').
Proof.
  intros HI. destruct (Inv_in_range cs HI) as (Hcnt & Hmax & _).
  assert (same : forall o' : Schedule, exists (k : Z) (o'' : Schedule),
            0 <= k <= maxPermits cs /\
            Some (cs, o') = Some (with_available k cs, o'')).
  { intros o'. exists (currentPermits cs), o'. split; [lia|].
    now rewrite with_available_id. }
  destruct op as [| | |n|n]; unfold exec, state_after.
  - rewrite (Acquire_on_Inv cs o HI).
    destruct (Z.eqb_spec (currentPermits cs) 0); [apply same|].
    destruct (hd false o); [apply same|].
    do 2 eexists. split; [|reflexivity]. lia.
  - rewrite (TryAcquire_on_Inv cs o HI).
    destruct (Z.eqb_spec (currentPermits cs) 0); [apply same|].
    do 2 eexists. split; [|reflexivity]. lia.
  - rewrite (Release_on_Inv cs o HI).
    destruct (Z.eqb_spec (currentPermits cs) (maxPermits cs)); [apply same|].
    destruct (hd false o); [apply same|].
    do 2 eexists. split; [|reflexivity]. lia.
  - rewrite (AcquireN_on_Inv n cs o HI).
    destruct (Z.ltb_spec (maxPermits cs) n); [apply same|].
    destruct (Z.ltb_spec (currentPermits cs) n); [apply same|].
    cbv zeta.
    pose proof (granted_le (Z.to_nat n) o) as Hi.
    pose proof (granted_le (granted (Z.to_nat n) o)
                  (rest_after (Z.to_nat n) o)) as Hj.
    destruct (granted (Z.to_nat n) o <? Z.to_nat n)%nat;
      do 2 eexists; (split; [|reflexivity]); lia.
  - rewrite (ReleaseN_on_Inv n cs o HI).
    destruct (Z.ltb_spec (maxPermits cs - currentPermits cs) n);
      [apply same|].
    pose proof (granted_le (Z.to_nat n) o) as Hi.
    do 2 eexists. split; [|reflexivity]. lia.
Qed.

Lemma trace_Inv (ops : list Op) :
  forall (cs : CountingSemaphore) (o : Schedule),
  Inv cs ->
  exists tr : list CountingSemaphore,
    trace ops cs o = Some tr /\
    length tr = length ops /\
    Forall (fun cs' => Inv cs' /\ maxPermits cs' = maxPermits cs) tr.
Proof.
  induction ops as [|op ops IH]; intros cs o HI.
  - exists []. simpl. auto.
  - destruct (exec_on_Inv op cs o HI) as (k & o1 & Hk & E).
    assert (HI1 : Inv (with_available k cs))
      by (now apply with_available_Inv).
    destruct (IH _ o1 HI1) as (tr & Etr & Hlen & Hall).
    exists (with_available k cs :: tr). simpl. rewrite E, Etr.
    repeat split.
    + simpl. now rewrite Hlen.
    + constructor; [auto|]. exact Hall.
Qed.

Lemma run_on_Inv (ops : list Op) :
  forall (cs : CountingSemaphore) (o : Schedule),
  Inv cs ->
  exists (k : Z) (o' : Schedule),
    0 <= k <= maxPermits cs /\ run ops cs o = Some (with_available k cs, o').
Proof.
  induction ops as [|op ops IH]; intros cs o HI.
  - destruct (Inv_in_range cs HI) as (Hcnt & _).
    exists (currentPermits cs), o. split; [lia|].
    simpl. now rewrite with_available_id.
  - destruct (exec_on_Inv op cs o HI) as (j & o1 & Hj & E).
    destruct (IH (with_available j cs) o1) as (k & o2 & Hk & Ek).
    { now apply with_available_Inv. }
    exists k, o2. split; [exact Hk|]. simpl. rewrite E, Ek.
    now rewrite with_available_twice.
Qed.

Lemma Reachable_Inv (cs : CountingSemaphore) : Reachable cs -> Inv cs.
Proof.
  intros (C & t & cs0 & ops & o & o' & [_ HC] & Hnew & Hrun).
  destruct (Inv_New C t cs0 HC Hnew) as [HI _].
  destruct (run_on_Inv ops cs0 o HI) as (k & o'' & Hk & E).
  rewrite E in Hrun. injection Hrun as <- _.
  now apply with_available_Inv.
Qed.

Lemma in_range_2 : GoInt.in_range 2.
Proof. unfold GoInt.in_range, GoInt.min_int, GoInt.max_int. lia. Qed.

Lemma sem_2_2_Reachable : Reachable sem_2_2.
Proof.
  exists 2, 5000000000, sem_2_2, [], [], [].
  split; [exact in_range_2 | split; reflexivity].
Qed.

Lemma sem_1_2_Reachable : Reachable sem_1_2.
Proof.
  exists 2, 5000000000, sem_2_2, [OpAcquire], [], [].
  split; [exact in_range_2 | split; reflexivity].
Qed.

Lemma sem_0_2_Reachable : Reachable sem_0_2.
Proof.
  exists 2, 5000000000, sem_2_2, [OpAcquireN 2], [], [].
  split; [exact in_range_2 | split; reflexivity].
Qed.

Lemma now_2_2_Reachable : Reachable now_2_2.
Proof.
  exists 2, 0, now_2_2, [], [], [].
  split; [exact in_range_2 | split; reflexivity].
Qed.

Lemma now_1_2_Reachable : Reachable now_1_2.
Proof.
  exists 2, 0, now_2_2, [OpTryAcquire], [], [].
  split; [exact in_range_2 | split; reflexivity].
Qed.

Lemma now_0_2_Reachable : Reachable now_0_2.
Proof.
  exists 2, 0, now_2_2, [OpTryAcquire; OpTryAcquire], [], [].
  split; [exact in_range_2 | split; reflexivity].
Qed.

(** * The properties of the specification *)

(** C1.  On a semaphore of capacity [C], whatever the [select] statements
    choose, after every operation of any sequence of Acquire, TryAcquire,
    Release, AcquireN and ReleaseN calls (and before the first), the
    counter equals the number of tokens in the pool and lies in [[0, C]],
    and [AvailablePermits()] returns that value of [[0, C]] without
    changing the state. *)
Theorem invariant_after_each_operation
        (C t : Z) (cs0 : CountingSemaphore) (ops : list Op) (o : Schedule) :
  GoInt.in_range C ->
  NewCountingSemaphore C t = Some cs0 ->
  exists tr : list CountingSemaphore,
    trace ops cs0 o = Some tr /\
    length tr = length ops /\
    Forall (fun cs =>
              currentPermits cs = Z.of_nat (length (chan_buf (sem cs))) /\
              0 <= currentPermits cs <= C /\
              forall o' : Schedule,
              exists v : Z,
                AvailablePermits cs o' = Some (v, cs, 0, o') /\ 0 <= v <= C)
           (cs0 :: tr).
Proof.
  intros [_ HC] Hnew.
  destruct (Inv_New C t cs0 HC Hnew) as [HI0 Hmx0].
  destruct (trace_Inv ops cs0 o HI0) as (tr & Etr & Hlen & Hall).
  exists tr. split; [exact Etr|]. split; [exact Hlen|].
  assert (Hall' : Forall (fun cs' => Inv cs' /\ maxPermits cs' = maxPermits cs0)
                         (cs0 :: tr)) by (constructor; auto).
  eapply Forall_impl; [|exact Hall']. simpl. intros cs [HI Hmx].
  destruct (Inv_in_range cs HI) as (Hcnt & _ & Hmir & _ & Hmu).
  split; [exact Hmir|]. split; [lia|].
  intros o'. exists (currentPermits cs). split; [|lia].
  now apply AvailablePermits_read.
Qed.

Lemma invariant_after_each_operation_witness :
  exists tr : list CountingSemaphore,
    trace [OpAcquire; OpAcquireN 2; OpTryAcquire; OpAcquire; OpRelease;
           OpReleaseN 3; OpReleaseN 1; OpAcquireN 2; OpRelease]
          now_2_2 [true; false; true; true; false; false; true] = Some tr /\
    length tr = 9%nat /\
    Forall (fun cs =>
              currentPermits cs = Z.of_nat (length (chan_buf (sem cs))) /\
              0 <= currentPermits cs <= 2 /\
              forall o' : Schedule,
              exists v : Z,
                AvailablePermits cs o' = Some (v, cs, 0, o') /\ 0 <= v <= 2)
           (now_2_2 :: tr).
Proof.
  apply (invariant_after_each_operation 2 0).
  - exact in_range_2.
  - reflexivity.
Defined.

(** C2.  For every positive capacity [C] and every timeout [t],
    [NewCountingSemaphore(C, t)] returns a semaphore whose pool holds [C]
    tokens and whose counter is [C]; [AvailablePermits()] called on it
    returns [C]. *)
Theorem New_fully_loaded (C t : Z) (o : Schedule) :
  0 < C ->
  exists cs : CountingSemaphore,
    NewCountingSemaphore C t = Some cs /\
    chan_buf (sem cs) = repeat tt (Z.to_nat C) /\
    chan_len (sem cs) = C /\
    chan_cap (sem cs) = C /\
    maxPermits cs = C /\
    currentPermits cs = C /\
    timeout cs = t /\
    AvailablePermits cs o = Some (C, cs, 0, o).
Proof.
  intros HC. eexists. split; [apply New_loaded; lia|].
  unfold chan_len. cbn [sem chan_buf chan_cap maxPermits currentPermits
                        timeout].
  rewrite repeat_length, Z2Nat.id by lia.
  repeat split.
Qed.

Lemma New_fully_loaded_witness :
  exists cs : CountingSemaphore,
    NewCountingSemaphore 2 5000000000 = Some cs /\
    chan_buf (sem cs) = repeat tt (Z.to_nat 2) /\
    chan_len (sem cs) = 2 /\
    chan_cap (sem cs) = 2 /\
    maxPermits cs = 2 /\
    currentPermits cs = 2 /\
    timeout cs = 5000000000 /\
    AvailablePermits cs [true] = Some (2, cs, 0, [true]).
Proof. apply (New_fully_loaded 2 5000000000 [true]). lia. Defined.

(** C4.  On a semaphore whose pool is empty, with timeout [t], [Acquire()]
    stays blocked for at least [t], then returns a timeout error, and the
    state after the call is the state before it: neither the counter nor
    the pool has changed. *)
Theorem Acquire_times_out_on_empty_pool
        (cs : CountingSemaphore) (o : Schedule) :
  chan_len (sem cs) = 0 ->
  exists (e : error) (d : Z),
    Acquire cs o = Some (Some e, cs, d, o) /\
    kind_of e = TimeoutError /\
    timeout cs <= d.
Proof.
  intros Hlen.
  assert (Hbuf : chan_buf (sem cs) = []).
  { unfold chan_len in Hlen. destruct (chan_buf (sem cs)); [reflexivity|].
    simpl in Hlen. lia. }
  exists ErrAcquireTimeout, (Z.max 0 (timeout cs)).
  split; [now apply Acquire_empty|]. split; [reflexivity | lia].
Qed.

Lemma Acquire_times_out_on_empty_pool_witness :
  exists (e : error) (d : Z),
    Acquire sem_0_2 [false] = Some (Some e, sem_0_2, d, [false]) /\
    kind_of e = TimeoutError /\
    5000000000 <= d.
Proof.
  apply (Acquire_times_out_on_empty_pool sem_0_2 [false]). reflexivity.
Defined.

(** C5.  [TryAcquire()] never waits.  When the pool holds a token it
    removes one, decrements the counter by one and returns true; when the
    pool is empty it returns false and the state is unchanged.  On a fresh
    semaphore of capacity 2, three calls in a row return true, true,
    false. *)
Theorem TryAcquire_never_blocks
        (cs : CountingSemaphore) (t : Z) (o : Schedule) :
  mutex cs = unlocked ->
  GoInt.min_int < currentPermits cs <= GoInt.max_int ->
  match chan_buf (sem cs) with
  | [] => TryAcquire cs o = Some (false, cs, 0, o)
  | _ :: rest =>
      TryAcquire cs o
      = Some (true, with_pool rest (currentPermits cs - 1) cs, 0, o)
  end /\
  exists cs0 cs3 : CountingSemaphore,
    NewCountingSemaphore 2 t = Some cs0 /\
    TryAcquire_thrice cs0 o = Some ((true, true, false), cs3, 0, o).
Proof.
  intros Hmu Hcp. split.
  - destruct (chan_buf (sem cs)) as [|v rest] eqn:Hbuf.
    + now apply TryAcquire_empty.
    + rewrite (TryAcquire_token cs v rest o Hmu Hbuf).
      rewrite wrap_in_range by (unfold GoInt.in_range; lia). reflexivity.
  - do 2 eexists. split; reflexivity.
Qed.

Lemma TryAcquire_never_blocks_witness :
  TryAcquire (mkCS (mkChan [tt] 2) 2 1 unlocked 7) [true]
  = Some (true, mkCS (mkChan [] 2) 2 0 unlocked 7, 0, [true]) /\
  exists cs0 cs3 : CountingSemaphore,
    NewCountingSemaphore 2 7 = Some cs0 /\
    TryAcquire_thrice cs0 [true] = Some ((true, true, false), cs3, 0, [true]).
Proof.
  apply (TryAcquire_never_blocks (mkCS (mkChan [tt] 2) 2 1 unlocked 7) 7
           [true]).
  - reflexivity.
  - unfold GoInt.min_int, GoInt.max_int. simpl. lia.
Defined.

(** C6.  For every [n] above [maxPermits], [AcquireN(n)] returns an
    invalid-request error at once, having waited for nothing and attempted
    no acquire: the state, and with it the pool and the value of
    [AvailablePermits()], is unchanged. *)
Theorem AcquireN_rejects_more_than_capacity
        (n : Z) (cs : CountingSemaphore) (o : Schedule) :
  maxPermits cs < n ->
  exists e : error,
    AcquireN n cs o = Some (Some e, cs, 0, o) /\
    kind_of e = InvalidRequest.
Proof.
  intros H. eexists. split; [now apply AcquireN_too_many | reflexivity].
Qed.

Lemma AcquireN_rejects_more_than_capacity_witness :
  exists e : error,
    AcquireN 3 sem_2_2 [true] = Some (Some e, sem_2_2, 0, [true]) /\
    kind_of e = InvalidRequest.
Proof.
  apply (AcquireN_rejects_more_than_capacity 3). simpl. lia.
Defined.

(** C7.  For every [n] not above [maxPermits], when the counter read by
    the check of [AcquireN(n)] is below [n], the call returns an
    insufficient-permits error at once, having acquired nothing: the state
    is unchanged. *)
Theorem AcquireN_rejects_when_too_few_available
        (n : Z) (cs : CountingSemaphore) (o : Schedule) :
  mutex cs = unlocked ->
  n <= maxPermits cs ->
  currentPermits cs < n ->
  exists e : error,
    AcquireN n cs o = Some (Some e, cs, 0, o) /\
    kind_of e = InsufficientPermits.
Proof.
  intros Hmu Hn Hcp. eexists.
  split; [now apply AcquireN_not_enough | reflexivity].
Qed.

Lemma AcquireN_rejects_when_too_few_available_witness :
  exists e : error,
    AcquireN 2 sem_1_2 [true] = Some (Some e, sem_1_2, 0, [true]) /\
    kind_of e = InsufficientPermits.
Proof.
  apply (AcquireN_rejects_when_too_few_available 2);
    [reflexivity | simpl; lia | simpl; lia].
Defined.

(** C3, as stated, fails: with timeout 0 the [select] of a [Release] may
    take the timer case although the pool has room.  After a successful
    [AcquireN(2)] on a fresh semaphore of capacity 2, [ReleaseN(2)] then
    returns the release-timeout error with nothing released, and
    [AvailablePermits()] is 0 instead of 2. *)
Lemma AcquireN_ReleaseN_round_trip_counterexample :
  Reachable now_2_2 /\
  AcquireN 2 now_2_2 [false; false; true] = Some (None, now_0_2, 0, [true]) /\
  ReleaseN 2 now_0_2 [true] = Some (Some ErrReleaseTimeout, now_0_2, 0, []) /\
  returns AvailablePermits now_0_2 []
  <> returns AvailablePermits now_2_2 [false; false; true].
Proof.
  split; [exact now_2_2_Reachable|].
  split; [reflexivity|]. split; [reflexivity|]. discriminate.
Qed.

(** C3, amended.  From every reachable state and for every [n >= 0], when
    [AcquireN(n)] succeeds it has lowered the counter by [n]; the
    [ReleaseN(n)] that follows passes its check and returns permits until
    one of its [Release] calls takes the timer case.  With [j] the number
    of [Release] calls that went through, [AvailablePermits()] ends at its
    value before the pair of calls less [n - j]: when [ReleaseN(n)] returns
    nil ([j = n]) the semaphore is back in the state before [AcquireN];
    otherwise [ReleaseN(n)] returns the release-timeout error and fewer
    permits are available than before. *)
Theorem AcquireN_ReleaseN_round_trip
        (n : Z) (cs cs1 : CountingSemaphore) (d1 : Z) (o o1 : Schedule) :
  Reachable cs ->
  0 <= n ->
  AcquireN n cs o = Some (None, cs1, d1, o1) ->
  let j := granted (Z.to_nat n) o1 in
  currentPermits cs1 = currentPermits cs - n /\
  ReleaseN n cs1 o1
  = Some (if (j <? Z.to_nat n)%nat then Some ErrReleaseTimeout else None,
          with_available (currentPermits cs - n + Z.of_nat j) cs,
          if (j <? Z.to_nat n)%nat then Z.max 0 (timeout cs) else 0,
          rest_after (Z.to_nat n) o1) /\
  (forall o2 : Schedule,
     returns AvailablePermits
       (with_available (currentPermits cs - n + Z.of_nat j) cs) o2
     = Some (currentPermits cs - n + Z.of_nat j)) /\
  returns AvailablePermits cs o = Some (currentPermits cs) /\
  (j = Z.to_nat n ->
   with_available (currentPermits cs - n + Z.of_nat j) cs = cs) /\
  (j <= Z.to_nat n)%nat.
Proof.
  intros HR Hn HA j. pose proof (Reachable_Inv cs HR) as HI.
  destruct (Inv_in_range cs HI) as (Hcnt & Hmax & Hmir & Hcap & Hmu).
  pose proof (granted_le (Z.to_nat n) o1) as Hj. fold j in Hj.
  rewrite (AcquireN_on_Inv n cs o HI) in HA.
  destruct (Z.ltb_spec (maxPermits cs) n) as [Hbig|Hfit]; [discriminate|].
  destruct (Z.ltb_spec (currentPermits cs) n) as [Hfew|Henough];
    [discriminate|].
  cbv zeta in HA.
  destruct (granted (Z.to_nat n) o <? Z.to_nat n)%nat; [discriminate|].
  injection HA as <- _ <-.
  assert (HI1 : Inv (with_available (currentPermits cs - Z.max 0 n) cs))
    by (apply with_available_Inv; [exact HI | lia]).
  split; [cbn [with_available with_pool currentPermits]; lia|].
  split.
  { rewrite (ReleaseN_on_Inv n _ _ HI1).
    cbn [with_available with_pool currentPermits maxPermits timeout].
    destruct (Z.ltb_spec (maxPermits cs - (currentPermits cs - Z.max 0 n)) n);
      [lia|].
    rewrite with_available_twice. fold j.
    replace (currentPermits cs - Z.max 0 n + Z.of_nat j)
      with (currentPermits cs - n + Z.of_nat j) by lia.
    reflexivity. }
  split.
  { intros o2. unfold returns. now rewrite AvailablePermits_read. }
  split.
  { unfold returns. now rewrite AvailablePermits_read. }
  split; [|exact Hj].
  intros Hall. rewrite Hall.
  replace (currentPermits cs - n + Z.of_nat (Z.to_nat n))
    with (currentPermits cs) by lia.
  now apply with_available_id.
Qed.

Lemma AcquireN_ReleaseN_round_trip_witness :
  let j := granted (Z.to_nat 2) [] in
  currentPermits sem_0_2 = currentPermits sem_2_2 - 2 /\
  ReleaseN 2 sem_0_2 []
  = Some (if (j <? Z.to_nat 2)%nat then Some ErrReleaseTimeout else None,
          with_available (currentPermits sem_2_2 - 2 + Z.of_nat j) sem_2_2,
          if (j <? Z.to_nat 2)%nat then Z.max 0 (timeout sem_2_2) else 0,
          rest_after (Z.to_nat 2) []) /\
  (forall o2 : Schedule,
     returns AvailablePermits
       (with_available (currentPermits sem_2_2 - 2 + Z.of_nat j) sem_2_2) o2
     = Some (currentPermits sem_2_2 - 2 + Z.of_nat j)) /\
  returns AvailablePermits sem_2_2 [false; false]
  = Some (currentPermits sem_2_2) /\
  (j = Z.to_nat 2 ->
   with_available (currentPermits sem_2_2 - 2 + Z.of_nat j) sem_2_2
   = sem_2_2) /\
  (j <= Z.to_nat 2)%nat.
Proof.
  apply (AcquireN_ReleaseN_round_trip 2 sem_2_2 sem_0_2 0 [false; false] []
           sem_2_2_Reachable).
  - lia.
  - reflexivity.
Defined.

(** C8, as stated, fails: the [Release] calls of the rollback can time out
    too, and [AcquireN] drops the error of [ReleaseN].  With timeout 0, on
    a fresh semaphore of capacity 2, [AcquireN(2)] takes one permit, its
    second [Acquire] takes the timer case, the [Release] of [ReleaseN(1)]
    takes the timer case as well, and [AcquireN] returns the timeout error
    with one permit available instead of two. *)
Lemma AcquireN_rolls_back_on_timeout_counterexample :
  Reachable now_2_2 /\
  AcquireN 2 now_2_2 [false; true; true]
  = Some (Some ErrAcquireTimeout, now_1_2, 0, []) /\
  returns AvailablePermits now_1_2 []
  <> returns AvailablePermits now_2_2 [false; true; true].
Proof.
  split; [exact now_2_2_Reachable|]. split; [reflexivity | discriminate].
Qed.

(** C8, amended.  In a reachable state in which both checks of
    [AcquireN(n)] pass, let the [i]-th constituent [Acquire] be the first
    whose [select] takes the timer case ([i < n]).  Then [AcquireN] has
    taken [i] permits, calls [ReleaseN(i)], drops what it returns and
    returns the acquire-timeout error.  [ReleaseN(i)] passes its check and
    returns permits until one of its [Release] calls takes the timer case:
    with [j] the number of releases that went through, the failed
    [AcquireN] leaves [AvailablePermits()] at its value before the call
    less [i - j].  When no release times out ([j = i]) the state is the
    state before the call. *)
Theorem AcquireN_rolls_back_on_timeout
        (n : Z) (cs : CountingSemaphore) (o : Schedule) :
  Reachable cs ->
  n <= maxPermits cs ->
  n <= currentPermits cs ->
  (granted (Z.to_nat n) o < Z.to_nat n)%nat ->
  let i := granted (Z.to_nat n) o in
  let o1 := rest_after (Z.to_nat n) o in
  let j := granted i o1 in
  let mid := with_available (currentPermits cs - Z.of_nat i) cs in
  let final :=
    with_available (currentPermits cs - Z.of_nat i + Z.of_nat j) cs in
  let rollback_wait :=
    if (j <? i)%nat then Z.max 0 (timeout cs) else 0 in
  AcquireN_loop i 0 cs o = Some (None, mid, 0, rest_after i o) /\
  Acquire mid (rest_after i o)
  = Some (Some ErrAcquireTimeout, mid, Z.max 0 (timeout cs), o1) /\
  ReleaseN (Z.of_nat i) mid o1
  = Some (if (j <? i)%nat then Some ErrReleaseTimeout else None,
          final, rollback_wait, rest_after i o1) /\
  AcquireN n cs o
  = Some (Some ErrAcquireTimeout, final,
          Z.max 0 (timeout cs) + rollback_wait, rest_after i o1) /\
  kind_of ErrAcquireTimeout = TimeoutError /\
  (j = i -> final = cs) /\
  (j <= i)%nat.
Proof.
  intros HR Hfit Henough Hlt i o1 j mid final rollback_wait.
  pose proof (Reachable_Inv cs HR) as HI.
  destruct (Inv_in_range cs HI) as (Hcnt & Hmax & Hmir & Hcap & Hmu).
  pose proof (granted_le i o1) as Hj. fold j in Hj.
  assert (HImid : Inv mid)
    by (apply with_available_Inv; [exact HI | lia]).
  (* how the schedule splits at the first timer case *)
  assert (Hsplit : forall (k : nat) (s : Schedule),
            (granted k s < k)%nat ->
            granted (granted k s) s = granted k s /\
            hd false (rest_after (granted k s) s) = true /\
            tl (rest_after (granted k s) s) = rest_after k s).
  { induction k as [|k IHk]; intros s Hs; simpl in *; [lia|].
    destruct (hd false s) eqn:Hs0.
    - simpl. auto.
    - simpl. rewrite Hs0.
      destruct (IHk (tl s)) as (H1 & H2 & H3); [lia|].
      rewrite H1. auto. }
  destruct (Hsplit _ o Hlt) as (Hgi & Hhd & Htl). fold i in Hgi, Hhd, Htl.
  fold o1 in Htl.
  assert (Hloop : AcquireN_loop i 0 cs o = Some (None, mid, 0, rest_after i o)).
  { rewrite AcquireN_loop_on_Inv by (exact HI || lia).
    rewrite Hgi, Nat.ltb_irrefl. reflexivity. }
  assert (Hacq : Acquire mid (rest_after i o)
                 = Some (Some ErrAcquireTimeout, mid, Z.max 0 (timeout cs),
                         o1)).
  { rewrite (Acquire_on_Inv _ _ HImid).
    cbn [mid with_available with_pool currentPermits timeout].
    destruct (Z.eqb_spec (currentPermits cs - Z.of_nat i) 0); [lia|].
    now rewrite Hhd, Htl. }
  assert (Hrel : ReleaseN (Z.of_nat i) mid o1
                 = Some (if (j <? i)%nat then Some ErrReleaseTimeout
                         else None,
                         final, rollback_wait, rest_after i o1)).
  { rewrite (ReleaseN_on_Inv _ _ _ HImid).
    cbn [mid with_available with_pool currentPermits maxPermits timeout].
    destruct (Z.ltb_spec (maxPermits cs - (currentPermits cs - Z.of_nat i))
                         (Z.of_nat i)); [lia|].
    rewrite Nat2Z.id. reflexivity. }
  repeat split; try assumption.
  - rewrite (AcquireN_on_Inv n cs o HI).
    destruct (Z.ltb_spec (maxPermits cs) n); [lia|].
    destruct (Z.ltb_spec (currentPermits cs) n); [lia|].
    cbv zeta. fold i. fold o1. fold j.
    apply Nat.ltb_lt in Hlt. fold i in Hlt. rewrite Hlt. reflexivity.
  - intros Hall. subst final. rewrite Hall.
    replace (currentPermits cs - Z.of_nat i + Z.of_nat i)
      with (currentPermits cs) by lia.
    now apply with_available_id.
Qed.

Lemma AcquireN_rolls_back_on_timeout_witness :
  AcquireN_loop 1 0 sem_2_2 [false; true; false]
  = Some (None, sem_1_2, 0, [true; false]) /\
  Acquire sem_1_2 [true; false]
  = Some (Some ErrAcquireTimeout, sem_1_2, 5000000000, [false]) /\
  ReleaseN 1 sem_1_2 [false] = Some (None, sem_2_2, 0, []) /\
  AcquireN 2 sem_2_2 [false; true; false]
  = Some (Some ErrAcquireTimeout, sem_2_2, 5000000000, []) /\
  kind_of ErrAcquireTimeout = TimeoutError /\
  (1%nat = 1%nat -> sem_2_2 = sem_2_2) /\
  (1 <= 1)%nat.
Proof.
  apply (AcquireN_rolls_back_on_timeout 2 sem_2_2 [false; true; false]
           sem_2_2_Reachable).
  - simpl. lia.
  - simpl. lia.
  - simpl. lia.
Defined.

(** C9.  In a reachable state, let [held = maxPermits - currentPermits] be
    the snapshot [ReleaseN(n)] takes on entry.  When [n] exceeds [held] the
    call returns an invalid-request error and the state is unchanged.
    Otherwise it makes [Release] calls in sequence, each depositing one
    token, and stops at the first one that times out: it then returns
    that timeout error at once with the tokens deposited so far still in
    the pool; when none times out it deposits [n] tokens and returns
    nil. *)
Theorem ReleaseN_checks_then_releases_without_rollback
        (n : Z) (cs : CountingSemaphore) (o : Schedule) :
  Reachable cs ->
  let held := maxPermits cs - currentPermits cs in
  let j := granted (Z.to_nat n) o in
  ReleaseN n cs o
  = (if held <? n then
       Some (Some (ErrReleaseTooMany n held), cs, 0, o)
     else
       Some (if (j <? Z.to_nat n)%nat then Some ErrReleaseTimeout else None,
             with_available (currentPermits cs + Z.of_nat j) cs,
             if (j <? Z.to_nat n)%nat then Z.max 0 (timeout cs) else 0,
             rest_after (Z.to_nat n) o)) /\
  kind_of (ErrReleaseTooMany n held) = InvalidRequest /\
  kind_of ErrReleaseTimeout = TimeoutError /\
  (j <= Z.to_nat n)%nat.
Proof.
  intros HR held j. split; [|split; [reflexivity|split; [reflexivity|]]].
  - apply ReleaseN_on_Inv, Reachable_Inv, HR.
  - apply granted_le.
Qed.

Lemma ReleaseN_checks_then_releases_without_rollback_witness :
  ReleaseN 2 now_0_2 [false; true]
  = Some (Some ErrReleaseTimeout, now_1_2, 0, []) /\
  kind_of (ErrReleaseTooMany 2 2) = InvalidRequest /\
  kind_of ErrReleaseTimeout = TimeoutError /\
  (1 <= 2)%nat.
Proof.
  apply (ReleaseN_checks_then_releases_without_rollback 2 now_0_2
           [false; true] now_0_2_Reachable).
Defined.

(** C10.  From every state a single goroutine can reach and for every
    [n <= 0], [AcquireN(n)] and [ReleaseN(n)] both return nil at once and
    leave the state as it was: no permit is acquired or released and
    [AvailablePermits()] is unchanged. *)
Theorem bulk_calls_with_nonpositive_n_do_nothing
        (n : Z) (cs : CountingSemaphore) (o : Schedule) :
  Reachable cs ->
  n <= 0 ->
  AcquireN n cs o = Some (None, cs, 0, o) /\
  ReleaseN n cs o = Some (None, cs, 0, o).
Proof.
  intros HR Hn. pose proof (Reachable_Inv cs HR) as HI.
  destruct (Inv_in_range cs HI) as (Hcnt & Hmax & Hmir & Hcap & Hmu).
  pose proof (held_in_range cs Hcnt Hmax) as Hheld.
  assert (Hk : Z.to_nat n = 0%nat) by lia.
  split.
  - rewrite (AcquireN_enter n cs o Hmu) by lia. now rewrite Hk.
  - rewrite (ReleaseN_enter n cs o Hmu) by lia. now rewrite Hk.
Qed.

Lemma bulk_calls_with_nonpositive_n_do_nothing_witness :
  AcquireN (-3) sem_1_2 [true] = Some (None, sem_1_2, 0, [true]) /\
  ReleaseN (-3) sem_1_2 [true] = Some (None, sem_1_2, 0, [true]).
Proof.
  apply (bulk_calls_with_nonpositive_n_do_nothing (-3) sem_1_2 [true]
           sem_1_2_Reachable).
  lia.
Defined.

(** * Further properties of the code *)

(** ** The single-permit methods in terms of the counter *)

(** X1.  In a reachable state, [Acquire()] with no permit available waits
    for the timeout and returns the acquire-timeout error with the state
    unchanged.  With a permit available it either takes exactly one permit
    and returns nil without waiting or, when its [select] takes the timer
    case, returns the acquire-timeout error with the state unchanged. *)
Theorem Acquire_takes_one_permit_or_times_out
        (cs : CountingSemaphore) (o : Schedule) :
  Reachable cs ->
  Acquire cs o
  = if currentPermits cs =? 0 then
      Some (Some ErrAcquireTimeout, cs, Z.max 0 (timeout cs), o)
    else if hd false o then
      Some (Some ErrAcquireTimeout, cs, Z.max 0 (timeout cs), tl o)
    else
      Some (None, with_available (currentPermits cs - 1) cs, 0, tl o).
Proof. intros HR. apply Acquire_on_Inv, Reachable_Inv, HR. Qed.

Lemma Acquire_takes_one_permit_or_times_out_witness :
  Acquire now_1_2 [true; false]
  = Some (Some ErrAcquireTimeout, now_1_2, 0, [false]).
Proof.
  apply (Acquire_takes_one_permit_or_times_out now_1_2 [true; false]
           now_1_2_Reachable).
Defined.

(** X2.  In a reachable state, [Release()] on a full semaphore waits for
    the timeout and returns the release-timeout error with the state
    unchanged, so the counter never passes the capacity.  Below the
    capacity it either returns exactly one permit and returns nil without
    waiting or, when its [select] takes the timer case, returns the
    release-timeout error with the state unchanged. *)
Theorem Release_returns_one_permit_or_times_out
        (cs : CountingSemaphore) (o : Schedule) :
  Reachable cs ->
  Release cs o
  = if currentPermits cs =? maxPermits cs then
      Some (Some ErrReleaseTimeout, cs, Z.max 0 (timeout cs), o)
    else if hd false o then
      Some (Some ErrReleaseTimeout, cs, Z.max 0 (timeout cs), tl o)
    else
      Some (None, with_available (currentPermits cs + 1) cs, 0, tl o).
Proof. intros HR. apply Release_on_Inv, Reachable_Inv, HR. Qed.

Lemma Release_returns_one_permit_or_times_out_witness :
  Release sem_2_2 [false]
  = Some (Some ErrReleaseTimeout, sem_2_2, 5000000000, [false]).
Proof.
  apply (Release_returns_one_permit_or_times_out sem_2_2 [false]
           sem_2_2_Reachable).
Defined.

(** X3.  In a reachable state, when [Acquire()] returns nil and the
    [Release()] that follows returns nil, the semaphore is back in the
    state before the two calls. *)
Theorem Acquire_Release_round_trip
        (cs cs1 cs2 : CountingSemaphore) (o o1 o2 : Schedule) (d1 d2 : Z) :
  Reachable cs ->
  Acquire cs o = Some (None, cs1, d1, o1) ->
  Release cs1 o1 = Some (None, cs2, d2, o2) ->
  currentPermits cs1 = currentPermits cs - 1 /\ cs2 = cs.
Proof.
  intros HR HA HRl. pose proof (Reachable_Inv cs HR) as HI.
  destruct (Inv_in_range cs HI) as (Hcnt & Hmax & _).
  rewrite (Acquire_on_Inv cs o HI) in HA.
  destruct (Z.eqb_spec (currentPermits cs) 0); [discriminate|].
  destruct (hd false o); [discriminate|].
  injection HA as <- _ <-.
  assert (HI1 : Inv (with_available (currentPermits cs - 1) cs))
    by (apply with_available_Inv; [exact HI | lia]).
  rewrite (Release_on_Inv _ _ HI1) in HRl.
  cbn [with_available with_pool currentPermits maxPermits] in HRl.
  destruct (Z.eqb_spec (currentPermits cs - 1) (maxPermits cs));
    [discriminate|].
  destruct (hd false (tl o)); [discriminate|].
  injection HRl as <- _ _. split; [reflexivity|].
  fold (with_pool (repeat tt (Z.to_nat (currentPermits cs - 1)))
                  (currentPermits cs - 1) cs).
  fold (with_available (currentPermits cs - 1) cs).
  rewrite with_available_twice.
  replace (currentPermits cs - 1 + 1) with (currentPermits cs) by lia.
  now apply with_available_id.
Qed.

Lemma Acquire_Release_round_trip_witness :
  Acquire now_2_2 [false; false; true] = Some (None, now_1_2, 0, [false; true])
  /\ Release now_1_2 [false; true] = Some (None, now_2_2, 0, [true])
  /\ currentPermits now_1_2 = currentPermits now_2_2 - 1
  /\ now_2_2 = now_2_2.
Proof.
  split; [reflexivity|]. split; [reflexivity|].
  apply (Acquire_Release_round_trip now_2_2 now_1_2 now_2_2
           [false; false; true] [false; true] [true] 0 0 now_2_2_Reachable);
    reflexivity.
Defined.

(** ** The bulk methods: how many permits move *)

(** X4.  In a reachable state and whatever its [select] statements choose,
    [AcquireN(n)] returns.  When it returns nil exactly [n] permits were
    taken (none when [n <= 0]).  When it returns an error, [n] is positive
    and fewer than [n] permits are missing afterwards: none after a failed
    check, and after a timeout those the rollback did not return. *)
Theorem AcquireN_moves_n_permits_or_fewer
        (n : Z) (cs : CountingSemaphore) (o : Schedule) :
  Reachable cs ->
  exists (r : option error) (cs' : CountingSemaphore) (d : Z)
         (o' : Schedule),
    AcquireN n cs o = Some (r, cs', d, o') /\
    match r with
    | None => currentPermits cs' = currentPermits cs - Z.max 0 n
    | Some _ =>
        0 < n /\
        currentPermits cs - n < currentPermits cs' <= currentPermits cs
    end.
Proof.
  intros HR. pose proof (Reachable_Inv cs HR) as HI.
  destruct (Inv_in_range cs HI) as (Hcnt & Hmax & _).
  rewrite (AcquireN_on_Inv n cs o HI).
  destruct (Z.ltb_spec (maxPermits cs) n).
  { do 4 eexists. split; [reflexivity|]. simpl. lia. }
  destruct (Z.ltb_spec (currentPermits cs) n).
  { do 4 eexists. split; [reflexivity|]. simpl. lia. }
  cbv zeta.
  pose proof (granted_le (Z.to_nat n) o) as Hi.
  pose proof (granted_le (granted (Z.to_nat n) o)
                (rest_after (Z.to_nat n) o)) as Hj.
  destruct (Nat.ltb_spec (granted (Z.to_nat n) o) (Z.to_nat n)).
  - do 4 eexists. split; [reflexivity|].
    cbn [with_available with_pool currentPermits]. lia.
  - do 4 eexists. split; [reflexivity|].
    cbn [with_available with_pool currentPermits]. lia.
Qed.

Lemma AcquireN_moves_n_permits_or_fewer_witness :
  exists (r : option error) (cs' : CountingSemaphore) (d : Z)
         (o' : Schedule),
    AcquireN 2 now_2_2 [false; true; true] = Some (r, cs', d, o') /\
    match r with
    | None => currentPermits cs' = currentPermits now_2_2 - Z.max 0 2
    | Some _ =>
        0 < 2 /\
        currentPermits now_2_2 - 2 < currentPermits cs'
        <= currentPermits now_2_2
    end.
Proof.
  apply (AcquireN_moves_n_permits_or_fewer 2 now_2_2 [false; true; true]
           now_2_2_Reachable).
Defined.

(** X5.  In a reachable state and whatever its [select] statements choose,
    [ReleaseN(n)] returns.  When it returns nil exactly [n] permits were
    returned (none when [n <= 0]).  When it returns an error, [n] is
    positive and fewer than [n] permits were returned: none after the
    failed check, and after a timeout those released before it. *)
Theorem ReleaseN_moves_n_permits_or_fewer
        (n : Z) (cs : CountingSemaphore) (o : Schedule) :
  Reachable cs ->
  exists (r : option error) (cs' : CountingSemaphore) (d : Z)
         (o' : Schedule),
    ReleaseN n cs o = Some (r, cs', d, o') /\
    match r with
    | None => currentPermits cs' = currentPermits cs + Z.max 0 n
    | Some _ =>
        0 < n /\
        currentPermits cs <= currentPermits cs' < currentPermits cs + n
    end.
Proof.
  intros HR. pose proof (Reachable_Inv cs HR) as HI.
  destruct (Inv_in_range cs HI) as (Hcnt & Hmax & _).
  rewrite (ReleaseN_on_Inv n cs o HI).
  destruct (Z.ltb_spec (maxPermits cs - currentPermits cs) n).
  { do 4 eexists. split; [reflexivity|]. simpl. lia. }
  pose proof (granted_le (Z.to_nat n) o) as Hi.
  destruct (Nat.ltb_spec (granted (Z.to_nat n) o) (Z.to_nat n)).
  - do 4 eexists. split; [reflexivity|].
    cbn [with_available with_pool currentPermits]. lia.
  - do 4 eexists. split; [reflexivity|].
    cbn [with_available with_pool currentPermits]. lia.
Qed.

Lemma ReleaseN_moves_n_permits_or_fewer_witness :
  exists (r : option error) (cs' : CountingSemaphore) (d : Z)
         (o' : Schedule),
    ReleaseN 2 now_0_2 [false; true] = Some (r, cs', d, o') /\
    match r with
    | None => currentPermits cs' = currentPermits now_0_2 + Z.max 0 2
    | Some _ =>
        0 < 2 /\
        currentPermits now_0_2 <= currentPermits cs'
        < currentPermits now_0_2 + 2
    end.
Proof.
  apply (ReleaseN_moves_n_permits_or_fewer 2 now_0_2 [false; true]
           now_0_2_Reachable).
Defined.

(** X14.  In a reachable state, when no [select] takes its timer case
    while its channel operation can proceed (every entry of the schedule is
    [false]), the bulk methods never wait and are all or nothing:
    [AcquireN(n)] is refused by a check with the state unchanged or takes
    exactly [n] permits, and [ReleaseN(n)] is refused with the state
    unchanged or returns exactly [n] permits. *)
Theorem bulk_calls_all_or_nothing_when_no_timer_fires_first
        (n : Z) (cs : CountingSemaphore) (o : Schedule) :
  Reachable cs ->
  Forall (eq false) o ->
  AcquireN n cs o
  = (if maxPermits cs <? n then
       Some (Some (ErrRequestedTooMany n (maxPermits cs)), cs, 0, o)
     else if currentPermits cs <? n then
       Some (Some (ErrNotEnough (currentPermits cs) n), cs, 0, o)
     else
       Some (None, with_available (currentPermits cs - Z.max 0 n) cs, 0,
             rest_after (Z.to_nat n) o)) /\
  ReleaseN n cs o
  = (if maxPermits cs - currentPermits cs <? n then
       Some (Some (ErrReleaseTooMany n (maxPermits cs - currentPermits cs)),
             cs, 0, o)
     else
       Some (None, with_available (currentPermits cs + Z.max 0 n) cs, 0,
             rest_after (Z.to_nat n) o)).
Proof.
  intros HR Ho. pose proof (Reachable_Inv cs HR) as HI.
  assert (Hg : granted (Z.to_nat n) o = Z.to_nat n).
  { apply granted_all. clear -Ho. revert o Ho.
    induction (Z.to_nat n) as [|k IH]; intros o Ho; simpl; [constructor|].
    destruct o as [|b o]; [constructor|].
    inversion Ho; subst. constructor; auto. }
  split.
  - rewrite (AcquireN_on_Inv n cs o HI). cbv zeta.
    rewrite Hg, Nat.ltb_irrefl. reflexivity.
  - rewrite (ReleaseN_on_Inv n cs o HI).
    rewrite Hg, Nat.ltb_irrefl.
    replace (Z.of_nat (Z.to_nat n)) with (Z.max 0 n) by lia. reflexivity.
Qed.

Lemma bulk_calls_all_or_nothing_when_no_timer_fires_first_witness :
  AcquireN 2 sem_2_2 [false; false; false]
  = Some (None, sem_0_2, 0, [false]) /\
  ReleaseN 2 sem_2_2 [false; false; false]
  = Some (Some (ErrReleaseTooMany 2 0), sem_2_2, 0, [false; false; false]).
Proof.
  apply (bulk_calls_all_or_nothing_when_no_timer_fires_first 2 sem_2_2
           [false; false; false] sem_2_2_Reachable).
  repeat constructor.
Defined.

(** ** Failed calls for a single permit *)

Lemma Acquire_outcomes (cs cs' : CountingSemaphore) (o o' : Schedule)
      (r : option error) (d : Z) :
  Acquire cs o = Some (r, cs', d, o') ->
  (r = None /\ d = 0 /\ TryAcquire cs o = Some (true, cs', 0, o)) \/
  (r = Some ErrAcquireTimeout /\ cs' = cs /\ d = Z.max 0 (timeout cs)).
Proof.
  destruct cs as [[[|v rest] cap] mx cp [[|] [|rd]] t];
    destruct o as [|[|] o]; intros H;
    try discriminate H; injection H as <- <- <- <-;
    (left; repeat split; reflexivity) ||
    (right; repeat split; unfold_m; now rewrite ?Z.add_0_l, ?Z.add_0_r).
Qed.

Lemma Release_outcomes (cs cs' : CountingSemaphore) (o o' : Schedule)
      (r : option error) (d : Z) :
  Release cs o = Some (r, cs', d, o') ->
  r = None \/ (r = Some ErrReleaseTimeout /\ cs' = cs).
Proof.
  destruct cs as [[buf cap] mx cp mu t]. unfold Release. unfold_m.
  destruct (Z.of_nat (length buf) <? cap);
    [destruct (hd false o); [|destruct mu as [[|] [|rd]]]|];
    intros H; try discriminate H; injection H as <- <- _ _; auto.
Qed.

(** X6.  On every state and whatever the [select] chooses, a call of
    [Acquire], [TryAcquire] or [Release] that fails (a non-nil error, or
    [false]) leaves the semaphore exactly as it was. *)
Theorem failed_single_call_changes_nothing
        (op : Op) (cs cs' : CountingSemaphore) (o o' : Schedule) (d : Z) :
  single op = true ->
  attempt op cs o = Some (false, cs', d, o') ->
  cs' = cs.
Proof.
  intros Hs H. destruct op as [| | |n|n]; try discriminate Hs;
    unfold attempt, bind in H.
  - destruct (Acquire cs o) as [[[[r cs1] d1] o1]|] eqn:E; [|discriminate].
    unfold ret in H. injection H as Hr <- _ _.
    destruct (Acquire_outcomes _ _ _ _ _ _ E) as [(-> & _)|(_ & -> & _)];
      [discriminate | reflexivity].
  - destruct cs as [[[|v rest] cap] mx cp [[|] [|rd]] t];
      try discriminate H; now injection H as <- _ _.
  - destruct (Release cs o) as [[[[r cs1] d1] o1]|] eqn:E; [|discriminate].
    unfold ret in H. injection H as Hr <- _ _.
    destruct (Release_outcomes _ _ _ _ _ _ E) as [->|(_ & ->)];
      [discriminate | reflexivity].
Qed.

Lemma failed_single_call_changes_nothing_witness :
  attempt OpRelease now_1_2 [true] = Some (false, now_1_2, 0, []) /\
  now_1_2 = now_1_2.
Proof.
  split; [reflexivity|].
  apply (failed_single_call_changes_nothing OpRelease now_1_2 now_1_2
           [true] [] 0); reflexivity.
Defined.

(** X7.  On every state and whatever the [select] chooses: when
    [Acquire()] returns nil it has not waited and [TryAcquire()] called
    instead returns [true] and leaves the same state; when [Acquire()]
    returns an error it is the acquire-timeout error, the state is
    unchanged and the wait is the timeout. *)
Theorem Acquire_succeeds_only_where_TryAcquire_does
        (cs cs' : CountingSemaphore) (o o' : Schedule)
        (r : option error) (d : Z) :
  Acquire cs o = Some (r, cs', d, o') ->
  match r with
  | None => d = 0 /\ TryAcquire cs o = Some (true, cs', 0, o)
  | Some e =>
      e = ErrAcquireTimeout /\ cs' = cs /\ d = Z.max 0 (timeout cs)
  end.
Proof.
  intros H.
  destruct (Acquire_outcomes _ _ _ _ _ _ H) as [(-> & ? & ?)|(-> & ? & ?)];
    auto.
Qed.

Lemma Acquire_succeeds_only_where_TryAcquire_does_witness :
  Acquire now_1_2 [false] = Some (None, now_0_2, 0, []) /\
  0 = 0 /\ TryAcquire now_1_2 [false] = Some (true, now_0_2, 0, [false]).
Proof.
  split; [reflexivity|].
  apply (Acquire_succeeds_only_where_TryAcquire_does now_1_2 now_0_2
           [false] [] None 0).
  reflexivity.
Defined.

(** ** The constructor at the edges *)

(** X8.  [NewCountingSemaphore(C, t)] returns exactly when [C] is not
    negative: the filling loop never blocks, and a negative capacity makes
    [make] panic. *)
Theorem New_returns_iff_capacity_not_negative (C t : Z) :
  (exists cs : CountingSemaphore, NewCountingSemaphore C t = Some cs)
  <-> 0 <= C.
Proof.
  split.
  - intros [cs H]. destruct (Z_lt_le_dec C 0) as [Hneg|Hpos]; [|exact Hpos].
    rewrite New_negative in H by exact Hneg. discriminate.
  - intros HC. eexists. now apply New_loaded.
Qed.

Lemma exec_zero_capacity (op : Op) (t : Z) (o : Schedule) :
  exec op (mkCS (mkChan [] 0) 0 0 unlocked t) o
  = Some (mkCS (mkChan [] 0) 0 0 unlocked t, o).
Proof.
  assert (HI : Inv (mkCS (mkChan [] 0) 0 0 unlocked t)).
  { apply (Inv_New 0 t); [unfold GoInt.max_int; lia | reflexivity]. }
  destruct op as [| | |n|n]; unfold exec, state_after;
    try reflexivity.
  - rewrite (AcquireN_on_Inv n _ o HI).
    cbn [maxPermits currentPermits].
    destruct (Z.ltb_spec 0 n); [reflexivity|]. cbv zeta.
    replace (Z.to_nat n) with 0%nat by lia.
    replace (Z.max 0 n) with 0 by lia. reflexivity.
  - rewrite (ReleaseN_on_Inv n _ o HI).
    cbn [maxPermits currentPermits].
    destruct (Z.ltb_spec (0 - 0) n); [reflexivity|].
    replace (Z.to_nat n) with 0%nat by lia. reflexivity.
Qed.

(** X9.  A semaphore built with capacity 0 is inert: whatever sequence of
    operations runs on it, its state never changes; [Acquire] and
    [Release] time out and [TryAcquire] returns false. *)
Theorem zero_capacity_semaphore_is_inert
        (t : Z) (cs0 : CountingSemaphore) (ops : list Op) (o : Schedule) :
  NewCountingSemaphore 0 t = Some cs0 ->
  run ops cs0 o = Some (cs0, o) /\
  returns Acquire cs0 o = Some (Some ErrAcquireTimeout) /\
  returns TryAcquire cs0 o = Some false /\
  returns Release cs0 o = Some (Some ErrReleaseTimeout).
Proof.
  intros Hnew. injection Hnew as <-. split; [|repeat split].
  induction ops as [|op ops IH]; simpl; [reflexivity|].
  change (run (op :: ops) (mkCS (mkChan [] 0) 0 0 unlocked t) o
          = Some (mkCS (mkChan [] 0) 0 0 unlocked t, o)).
  cbn [run]. now rewrite exec_zero_capacity.
Qed.

Lemma zero_capacity_semaphore_is_inert_witness :
  run [OpRelease; OpAcquire; OpReleaseN 1; OpAcquireN 0; OpTryAcquire]
      (mkCS (mkChan [] 0) 0 0 unlocked 5) [true; false]
  = Some (mkCS (mkChan [] 0) 0 0 unlocked 5, [true; false]) /\
  returns Acquire (mkCS (mkChan [] 0) 0 0 unlocked 5) [true; false]
  = Some (Some ErrAcquireTimeout) /\
  returns TryAcquire (mkCS (mkChan [] 0) 0 0 unlocked 5) [true; false]
  = Some false /\
  returns Release (mkCS (mkChan [] 0) 0 0 unlocked 5) [true; false]
  = Some (Some ErrReleaseTimeout).
Proof.
  apply (zero_capacity_semaphore_is_inert 5). reflexivity.
Defined.

(** ** What no method changes *)

Lemma keeps_config_ret {A : Type} (a : A) : keeps_config (ret a).
Proof. intros cs cs' o o' r d H. injection H as _ <- _ _. auto. Qed.

Lemma keeps_config_get : keeps_config get.
Proof. intros cs cs' o o' r d H. injection H as _ <- _ _. auto. Qed.

Lemma keeps_config_bind {A B : Type} (m : M A) (f : A -> M B) :
  keeps_config m ->
  (forall a : A, keeps_config (f a)) ->
  keeps_config (bind m f).
Proof.
  intros Hm Hf cs cs' o o' r d H. unfold bind in H.
  destruct (m cs o) as [[[[a cs1] d1] o1]|] eqn:E1; [|discriminate].
  destruct (f a cs1 o1) as [[[[b cs2] d2] o2]|] eqn:E2; [|discriminate].
  injection H as <- <- <- <-.
  destruct (Hm _ _ _ _ _ _ E1) as (H1 & H2 & H3 & H4).
  destruct (Hf a _ _ _ _ _ _ E2) as (H5 & H6 & H7 & H8).
  repeat split; congruence.
Qed.

Lemma keeps_config_Acquire : keeps_config Acquire.
Proof.
  intros [[[|v rest] cap] mx cp [[|] [|rd]] t] cs' [|[|] o] o' r d H;
    try discriminate H; injection H as _ <- _ _; auto.
Qed.

Lemma keeps_config_TryAcquire : keeps_config TryAcquire.
Proof.
  intros [[[|v rest] cap] mx cp [[|] [|rd]] t] cs' o o' r d H;
    try discriminate H; injection H as _ <- _ _; auto.
Qed.

Lemma keeps_config_Release : keeps_config Release.
Proof.
  intros [[buf cap] mx cp mu t] cs' o o' r d H.
  unfold Release in H. unfold_m in H.
  destruct (Z.of_nat (length buf) <? cap);
    [destruct (hd false o); [|destruct mu as [[|] [|rd]]]|];
    try discriminate H; injection H as _ <- _ _; auto.
Qed.

Lemma keeps_config_AvailablePermits : keeps_config AvailablePermits.
Proof.
  intros [[buf cap] mx cp [[|] rd] t] cs' o o' r d H;
    try discriminate H; injection H as _ <- _ _; auto.
Qed.

Lemma keeps_config_ReleaseN_loop (k : nat) : keeps_config (ReleaseN_loop k).
Proof.
  induction k as [|k IH]; cbn [ReleaseN_loop].
  - apply keeps_config_ret.
  - apply keeps_config_bind; [exact keeps_config_Release|].
    intros [e|]; [apply keeps_config_ret | exact IH].
Qed.

Lemma keeps_config_ReleaseN (n : Z) : keeps_config (ReleaseN n).
Proof.
  intros [[buf cap] mx cp [[|] rd] t] cs' o o' r d H; [discriminate H|].
  unfold ReleaseN in H.
  cbv beta iota delta
    [bind get modify never mutex_RLock mutex_RUnlock set_mutex sem
     maxPermits currentPermits mutex timeout writer readers] in H.
  destruct (n >? GoInt.wrap (mx - cp)).
  - injection H as _ <- _ _. auto.
  - destruct (ReleaseN_loop (Z.to_nat n) _ _) as [[[[b cs2] d2] o2]|] eqn:E;
      [|discriminate H].
    injection H as _ <- _ _.
    exact (keeps_config_ReleaseN_loop _ _ _ _ _ _ _ E).
Qed.

Lemma keeps_config_AcquireN_loop (k : nat) :
  forall i : Z, keeps_config (AcquireN_loop k i).
Proof.
  induction k as [|k IH]; intros i; cbn [AcquireN_loop].
  - apply keeps_config_ret.
  - apply keeps_config_bind; [exact keeps_config_Acquire|].
    intros [e|]; [|apply IH].
    apply keeps_config_bind; [apply keeps_config_ReleaseN|].
    intros _. apply keeps_config_ret.
Qed.

Lemma keeps_config_AcquireN (n : Z) : keeps_config (AcquireN n).
Proof.
  unfold AcquireN. apply keeps_config_bind; [exact keeps_config_get|].
  intros cs. destruct (n >? maxPermits cs); [apply keeps_config_ret|].
  apply keeps_config_bind; [exact keeps_config_AvailablePermits|].
  intros a. destruct (a <? n); [|apply keeps_config_AcquireN_loop].
  apply keeps_config_bind; [exact keeps_config_AvailablePermits|].
  intros a'. apply keeps_config_ret.
Qed.

Lemma keeps_config_exec (op : Op) (cs cs' : CountingSemaphore)
      (o o' : Schedule) :
  exec op cs o = Some (cs', o') ->
  maxPermits cs' = maxPermits cs /\
  timeout cs' = timeout cs /\
  chan_cap (sem cs') = chan_cap (sem cs) /\
  mutex cs' = mutex cs.
Proof.
  assert (step : forall (A : Type) (m : M A), keeps_config m ->
            state_after m cs o = Some (cs', o') ->
            maxPermits cs' = maxPermits cs /\ timeout cs' = timeout cs /\
            chan_cap (sem cs') = chan_cap (sem cs) /\ mutex cs' = mutex cs).
  { intros A m Hm H. unfold state_after in H.
    destruct (m cs o) as [[[[r cs1] d] o1]|] eqn:E; [|discriminate].
    injection H as <- <-. exact (Hm _ _ _ _ _ _ E). }
  destruct op; simpl; apply step.
  - exact keeps_config_Acquire.
  - exact keeps_config_TryAcquire.
  - exact keeps_config_Release.
  - apply keeps_config_AcquireN.
  - apply keeps_config_ReleaseN.
Qed.

(** X10.  Whatever the state a sequence of operations starts from and
    whatever the [select] statements choose, when the sequence runs to its
    end the lock is in the state it was found in, and the capacity
    [maxPermits], the timeout and the channel's capacity are unchanged: no
    method leaks the lock or reconfigures the semaphore. *)
Theorem operations_keep_configuration_and_lock
        (ops : list Op) (cs cs' : CountingSemaphore) (o o' : Schedule) :
  run ops cs o = Some (cs', o') ->
  maxPermits cs' = maxPermits cs /\
  timeout cs' = timeout cs /\
  chan_cap (sem cs') = chan_cap (sem cs) /\
  mutex cs' = mutex cs.
Proof.
  revert cs o. induction ops as [|op ops IH]; intros cs o H; simpl in H.
  - injection H as <- _. auto.
  - destruct (exec op cs o) as [[cs1 o1]|] eqn:E; [|discriminate].
    destruct (keeps_config_exec op cs cs1 o o1 E) as (H1 & H2 & H3 & H4).
    destruct (IH cs1 o1 H) as (H5 & H6 & H7 & H8).
    repeat split; congruence.
Qed.

Lemma operations_keep_configuration_and_lock_witness :
  run [OpAcquire; OpAcquireN 3; OpTryAcquire; OpRelease; OpTryAcquire]
      now_2_2 [true; false; true]
  = Some (now_1_2, [true]) /\
  maxPermits now_1_2 = maxPermits now_2_2 /\
  timeout now_1_2 = timeout now_2_2 /\
  chan_cap (sem now_1_2) = chan_cap (sem now_2_2) /\
  mutex now_1_2 = mutex now_2_2.
Proof.
  split; [reflexivity|].
  apply (operations_keep_configuration_and_lock
           [OpAcquire; OpAcquireN 3; OpTryAcquire; OpRelease; OpTryAcquire]
           now_2_2 now_1_2 [true; false; true] [true]).
  reflexivity.
Defined.

(** ** The states a single goroutine can reach *)

(** X11.  Whatever the [select] statements choose, the reachable states
    are exactly those with the lock free, the channel made with capacity
    [maxPermits] within the range of [int], and [k] tokens in the pool
    with the counter at [k], for some [k] between 0 and [maxPermits]:
    every such count can be reached, and nothing else. *)
Theorem Reachable_iff_counter_mirrors_pool (cs : CountingSemaphore) :
  Reachable cs <->
  exists C t k : Z,
    0 <= k <= C /\ C <= GoInt.max_int /\
    cs = mkCS (mkChan (repeat tt (Z.to_nat k)) C) C k unlocked t.
Proof.
  split.
  - intros HR. pose proof (Reachable_Inv cs HR) as HI.
    destruct (Inv_in_range cs HI) as (Hcnt & Hmax & Hmir & Hcap & Hmu).
    exists (maxPermits cs), (timeout cs), (currentPermits cs).
    split; [exact Hcnt|]. split; [exact Hmax|].
    rewrite <- (with_available_id cs HI) at 1.
    unfold with_available, with_pool. now rewrite Hcap, Hmu.
  - intros (C & t & k & Hk & HC & ->).
    exists C, t, (mkCS (mkChan (repeat tt (Z.to_nat C)) C) C C unlocked t),
      (repeat OpTryAcquire (Z.to_nat (C - k))), [], [].
    pose proof min_int_neg as Hmin.
    split; [unfold GoInt.in_range; lia|].
    split; [apply New_loaded; lia|].
    assert (HI : Inv (mkCS (mkChan (repeat tt (Z.to_nat C)) C) C C unlocked t)).
    { apply (Inv_New C t); [exact HC | apply New_loaded; lia]. }
    assert (Hrun : forall (j : nat) (cs1 : CountingSemaphore),
              Inv cs1 -> Z.of_nat j <= currentPermits cs1 ->
              run (repeat OpTryAcquire j) cs1 []
              = Some (with_available (currentPermits cs1 - Z.of_nat j) cs1,
                      [])).
    { induction j as [|j IHj]; intros cs1 HI1 Hj.
      - simpl. now rewrite Z.sub_0_r, with_available_id.
      - destruct (Inv_in_range cs1 HI1) as (Hcnt1 & _).
        cbn [repeat run exec]. unfold state_after.
        rewrite (TryAcquire_on_Inv cs1 [] HI1).
        destruct (Z.eqb_spec (currentPermits cs1) 0); [lia|].
        rewrite IHj;
          [|apply with_available_Inv; [exact HI1 | lia]
           |cbn [with_available with_pool currentPermits]; lia].
        rewrite with_available_twice.
        cbn [with_available with_pool currentPermits].
        do 3 f_equal. lia. }
    rewrite (Hrun _ _ HI) by (cbn [currentPermits]; lia).
    unfold with_available, with_pool.
    cbn [sem chan_cap maxPermits mutex timeout currentPermits].
    replace (C - Z.of_nat (Z.to_nat (C - k))) with k by lia. reflexivity.
Qed.

(** ** Successful calls and the counter *)

(** A call that succeeds moves the counter by exactly what it asks for;
    whether it succeeds or not the invariant is kept. *)
Lemma attempt_on_Inv (op : Op) (cs cs' : CountingSemaphore)
      (o o' : Schedule) (b : bool) (d : Z) :
  Inv cs ->
  attempt op cs o = Some (b, cs', d, o') ->
  Inv cs' /\
  (b = true -> currentPermits cs' = currentPermits cs + nominal op).
Proof.
  intros HI H. destruct (Inv_in_range cs HI) as (Hcnt & Hmax & _).
  pose proof (fun k Hk => with_available_Inv k cs HI Hk) as Hwa.
  destruct op as [| | |n|n]; unfold attempt, bind in H.
  - rewrite (Acquire_on_Inv cs o HI) in H.
    destruct (Z.eqb_spec (currentPermits cs) 0);
      [|destruct (hd false o)];
      injection H as <- <- _ _; (split; [|discriminate || intros _]);
      try exact HI.
    + apply Hwa. lia.
    + cbn [with_available with_pool currentPermits nominal]. lia.
  - rewrite (TryAcquire_on_Inv cs o HI) in H.
    destruct (Z.eqb_spec (currentPermits cs) 0);
      injection H as <- <- _ _; (split; [|discriminate || intros _]);
      try exact HI.
    + apply Hwa. lia.
    + cbn [with_available with_pool currentPermits nominal]. lia.
  - rewrite (Release_on_Inv cs o HI) in H.
    destruct (Z.eqb_spec (currentPermits cs) (maxPermits cs));
      [|destruct (hd false o)];
      injection H as <- <- _ _; (split; [|discriminate || intros _]);
      try exact HI.
    + apply Hwa. lia.
    + cbn [with_available with_pool currentPermits nominal]. lia.
  - rewrite (AcquireN_on_Inv n cs o HI) in H.
    pose proof (granted_le (Z.to_nat n) o) as Hi.
    pose proof (granted_le (granted (Z.to_nat n) o)
                  (rest_after (Z.to_nat n) o)) as Hj.
    destruct (Z.ltb_spec (maxPermits cs) n);
      [|destruct (Z.ltb_spec (currentPermits cs) n);
        [|cbv zeta in H;
          destruct (Nat.ltb_spec (granted (Z.to_nat n) o) (Z.to_nat n))]];
      injection H as <- <- _ _; (split; [|discriminate || intros _]);
      try exact HI.
    + apply Hwa. lia.
    + apply Hwa. lia.
    + cbn [with_available with_pool currentPermits nominal]. lia.
  - rewrite (ReleaseN_on_Inv n cs o HI) in H.
    pose proof (granted_le (Z.to_nat n) o) as Hi.
    destruct (Z.ltb_spec (maxPermits cs - currentPermits cs) n);
      [|destruct (Nat.ltb_spec (granted (Z.to_nat n) o) (Z.to_nat n))];
      injection H as <- <- _ _; (split; [|discriminate || intros _]);
      try exact HI.
    + apply Hwa. lia.
    + apply Hwa. lia.
    + cbn [with_available with_pool currentPermits nominal]. lia.
Qed.

Lemma attempts_on_Inv (ops : list Op) :
  forall (cs cs' : CountingSemaphore) (o o' : Schedule) (d : Z),
  Inv cs ->
  attempts ops cs o = Some (true, cs', d, o') ->
  Inv cs' /\ currentPermits cs' = currentPermits cs + net_change ops.
Proof.
  induction ops as [|op ops IH]; intros cs cs' o o' d HI H.
  - injection H as <- _ _. simpl. split; [exact HI | lia].
  - cbn [attempts] in H. unfold bind at 1 in H.
    destruct (attempt op cs o) as [[[[b cs1] d1] o1]|] eqn:E1;
      [|discriminate].
    unfold bind in H.
    destruct (attempts ops cs1 o1) as [[[[bs cs2] d2] o2]|] eqn:E2;
      [|discriminate].
    unfold ret in H. injection H as Hb <- _ _.
    apply andb_prop in Hb. destruct Hb as [-> ->].
    destruct (attempt_on_Inv _ _ _ _ _ _ _ HI E1) as [HI1 H1].
    destruct (IH _ _ _ _ _ HI1 E2) as [HI2 H2].
    split; [exact HI2|]. cbn [net_change fold_right].
    fold (net_change ops). specialize (H1 eq_refl). lia.
Qed.

(** X12.  From a reachable state, when every call of a sequence of
    operations succeeds, the number of available permits has changed by
    exactly the sum of what the calls ask for: one permit per [Acquire],
    [TryAcquire] and [Release], [n] per [AcquireN(n)] and [ReleaseN(n)]
    with positive [n]. *)
Theorem successful_calls_move_the_counter_by_their_sum
        (ops : list Op) (cs cs' : CountingSemaphore) (o o' : Schedule)
        (d : Z) :
  Reachable cs ->
  attempts ops cs o = Some (true, cs', d, o') ->
  currentPermits cs' = currentPermits cs + net_change ops /\
  forall o2 : Schedule,
    returns AvailablePermits cs' o2
    = Some (currentPermits cs + net_change ops).
Proof.
  intros HR H.
  destruct (attempts_on_Inv ops _ _ _ _ _ (Reachable_Inv cs HR) H)
    as [HI' Hcp].
  split; [exact Hcp|]. intros o2.
  destruct (Inv_in_range cs' HI') as (_ & _ & _ & _ & Hmu).
  unfold returns. rewrite AvailablePermits_read by exact Hmu.
  now rewrite Hcp.
Qed.

Lemma successful_calls_move_the_counter_by_their_sum_witness :
  attempts [OpAcquireN 2; OpRelease; OpTryAcquire; OpReleaseN 2] now_2_2
           [false; false; false; false; false; true]
  = Some (true, now_2_2, 0, [true]) /\
  currentPermits now_2_2
  = currentPermits now_2_2
    + net_change [OpAcquireN 2; OpRelease; OpTryAcquire; OpReleaseN 2] /\
  forall o2 : Schedule,
    returns AvailablePermits now_2_2 o2
    = Some (currentPermits now_2_2
            + net_change [OpAcquireN 2; OpRelease; OpTryAcquire;
                          OpReleaseN 2]).
Proof.
  split; [reflexivity|].
  apply (successful_calls_move_the_counter_by_their_sum
           [OpAcquireN 2; OpRelease; OpTryAcquire; OpReleaseN 2]
           now_2_2 now_2_2 [false; false; false; false; false; true] [true] 0
           now_2_2_Reachable).
  reflexivity.
Defined.

Lemma net_change_drain_release (k : nat) :
  net_change (repeat OpAcquire k ++ [OpRelease]) = 1 - Z.of_nat k.
Proof.
  induction k as [|k IH]; [reflexivity|].
  cbn [repeat app net_change fold_right].
  fold (net_change (repeat OpAcquire k ++ [OpRelease])).
  rewrite IH. cbn [nominal]. lia.
Qed.

(** X13.  On a fresh semaphore of positive capacity [C], when [C] calls of
    [Acquire()] followed by one [Release()] all succeed,
    [AvailablePermits()] returns 1. *)
Theorem drain_then_release_leaves_one_permit
        (C t : Z) (cs0 cs : CountingSemaphore) (o o' o2 : Schedule) (d : Z) :
  0 < C <= GoInt.max_int ->
  NewCountingSemaphore C t = Some cs0 ->
  attempts (repeat OpAcquire (Z.to_nat C) ++ [OpRelease]) cs0 o
  = Some (true, cs, d, o') ->
  returns AvailablePermits cs o2 = Some 1.
Proof.
  intros [Hpos HC] Hnew H.
  destruct (Inv_New C t cs0 HC Hnew) as [HI Hmx].
  assert (Hcp : currentPermits cs0 = C).
  { rewrite New_loaded in Hnew by lia. now injection Hnew as <-. }
  destruct (attempts_on_Inv _ _ _ _ _ _ HI H) as [HI' Hcp'].
  rewrite net_change_drain_release in Hcp'.
  destruct (Inv_in_range cs HI') as (_ & _ & _ & _ & Hmu).
  unfold returns. rewrite AvailablePermits_read by exact Hmu.
  f_equal. lia.
Qed.

Lemma drain_then_release_leaves_one_permit_witness :
  attempts (repeat OpAcquire (Z.to_nat 2) ++ [OpRelease]) now_2_2
           [false; false; false; true]
  = Some (true, now_1_2, 0, [true]) /\
  returns AvailablePermits now_1_2 [true] = Some 1.
Proof.
  split; [reflexivity|].
  apply (drain_then_release_leaves_one_permit 2 0 now_2_2 now_1_2
           [false; false; false; true] [true] [true] 0).
  - unfold GoInt.max_int. lia.
  - reflexivity.
  - reflexivity.
Defined.

(** ** The sequential part of the driver *)

Lemma main_TryAcquire_loop_on_Inv (k : nat) :
  forall (i : Z) (cs : CountingSemaphore) (o : Schedule),
  Inv cs ->
  main_TryAcquire_loop k i cs o
  = Some (attempt_lines (Z.to_nat (currentPermits cs)) k i,
          with_available (Z.max 0 (currentPermits cs - Z.of_nat k)) cs, 0,
          o).
Proof.
  induction k as [|k IH]; intros i cs o HI;
    destruct (Inv_in_range cs HI) as (Hcnt & Hmax & _).
  - simpl. unfold ret.
    replace (Z.max 0 (currentPermits cs - 0)) with (currentPermits cs)
      by lia.
    now rewrite with_available_id.
  - cbn [main_TryAcquire_loop].
    pose proof (TryAcquire_on_Inv cs o HI) as HT.
    destruct (Z.eqb_spec (currentPermits cs) 0) as [E|NE].
    + step_bind HT. step_bind (IH (i + 1) cs o HI). unfold ret.
      replace (Z.to_nat (currentPermits cs)) with O by lia.
      cbn [attempt_lines].
      replace (Z.max 0 (currentPermits cs - Z.of_nat k)) with 0 by lia.
      replace (Z.max 0 (currentPermits cs - Z.of_nat (S k))) with 0 by lia.
      reflexivity.
    + step_bind HT.
      assert (HI1 : Inv (with_available (currentPermits cs - 1) cs))
        by (apply with_available_Inv; [exact HI | lia]).
      step_bind (IH (i + 1) _ o HI1). unfold ret.
      rewrite with_available_twice.
      cbn [with_available with_pool currentPermits].
      replace (Z.to_nat (currentPermits cs))
        with (S (Z.to_nat (currentPermits cs - 1))) by lia.
      cbn [attempt_lines].
      replace (Z.max 0 (currentPermits cs - 1 - Z.of_nat k))
        with (Z.max 0 (currentPermits cs - Z.of_nat (S k))) by lia.
      reflexivity.
Qed.

(** X15.  Run on a reachable state with at most three permits available,
    the sequential part of the driver never waits and ends with no permit
    available.  Its three [TryAcquire] attempts take every permit;
    [ReleaseN(AvailablePermits())] is then [ReleaseN(0)] and returns
    nothing, so the line announcing that all permits were released reports
    0; [AcquireN(2)] therefore fails, and the permits taken by the
    attempts are never given back. *)
Theorem main_sequential_part_leaves_no_permit
        (cs : CountingSemaphore) (o : Schedule) :
  Reachable cs ->
  currentPermits cs <= 3 ->
  main_sequential_part cs o
  = Some ([HeaderTryAcquire]
          ++ attempt_lines (Z.to_nat (currentPermits cs)) 3 0
          ++ [AllReleased 0; HeaderBulk; TryingToAcquireTwo;
              AcquireTwoFailed
                (if maxPermits cs <? 2
                 then ErrRequestedTooMany 2 (maxPermits cs)
                 else ErrNotEnough 0 2);
              Finished],
          with_available 0 cs, 0, o).
Proof.
  intros HR Hcp. pose proof (Reachable_Inv cs HR) as HI.
  destruct (Inv_in_range cs HI) as (Hcnt & Hmax & _ & _ & Hmu).
  assert (HI0 : Inv (with_available 0 cs))
    by (apply with_available_Inv; [exact HI | lia]).
  assert (Hmu0 : mutex (with_available 0 cs) = unlocked) by exact Hmu.
  pose proof (main_TryAcquire_loop_on_Inv 3 0 cs o HI) as Hloop.
  replace (Z.max 0 (currentPermits cs - Z.of_nat 3)) with 0 in Hloop by lia.
  pose proof (AvailablePermits_read _ o Hmu0) as Hav.
  cbn [with_available with_pool currentPermits] in Hav.
  fold (with_pool (repeat tt (Z.to_nat 0)) 0 cs) in Hav.
  fold (with_available 0 cs) in Hav.
  pose proof (ReleaseN_on_Inv 0 _ o HI0) as Hrel.
  cbn [with_available with_pool currentPermits maxPermits] in Hrel.
  fold (with_pool (repeat tt (Z.to_nat 0)) 0 cs) in Hrel.
  fold (with_available 0 cs) in Hrel.
  destruct (Z.ltb_spec (maxPermits cs - 0) 0) as [|_]; [lia|].
  cbn [Z.to_nat granted rest_after Nat.ltb Nat.leb Z.of_nat] in Hrel.
  pose proof (AcquireN_on_Inv 2 _ o HI0) as Hacq.
  cbn [with_available with_pool currentPermits maxPermits] in Hacq.
  fold (with_pool (repeat tt (Z.to_nat 0)) 0 cs) in Hacq.
  fold (with_available 0 cs) in Hacq.
  unfold main_sequential_part.
  step_bind Hloop. step_bind Hav. step_bind Hrel.
  rewrite with_available_twice. step_bind Hav.
  destruct (Z.ltb_spec (maxPermits cs) 2) as [Hsmall|Hbig].
  - step_bind Hacq. reflexivity.
  - change (0 <? 2) with true in Hacq. cbv iota in Hacq.
    step_bind Hacq. reflexivity.
Qed.

Lemma main_sequential_part_leaves_no_permit_witness :
  main_sequential_part sem_2_2 [true; true]
  = Some ([HeaderTryAcquire; TryAcquired 1; TryAcquired 2;
           TryAcquireFailed 3; AllReleased 0; HeaderBulk;
           TryingToAcquireTwo; AcquireTwoFailed (ErrNotEnough 0 2);
           Finished],
          sem_0_2, 0, [true; true]).
Proof.
  apply (main_sequential_part_leaves_no_permit sem_2_2 [true; true]
           sem_2_2_Reachable).
  simpl. lia.
Defined.
